(** * Vibe Studio: the local-library scanner and the drop resolver

    A shallow embedding of the filename recognisers, of the two
    [scanSequences] variants (the strict one of [lib/scanner], the loose one
    inlined in the application), of the stored-directory helpers and of the
    application handlers [init], [handleConnectFolder] and [handleFileDrop],
    followed by the properties of the specification that concern them. *)

From Stdlib Require Import Ascii String.
From stdpp Require Import gmap strings list fin_maps.
(** ** Strings

    A JavaScript string is a sequence of code units.  File names are modelled
    as lists of 8-bit code units (the Latin-1 range), which covers every
    character the two patterns and the classification test for.  String
    literals of the source are written [str "..."]. *)

Abbreviation jsstring := (list ascii).

Definition str (s : string) : jsstring := list_ascii_of_string s.
Arguments str s%_string : simpl never.

Definition code (c : ascii) : N := N_of_ascii c.

Definition in_range (lo hi : N) (c : ascii) : bool :=
  (lo <=? code c)%N && (code c <=? hi)%N.

Definition is_digit (c : ascii) : bool := in_range 48 57 c.
Definition is_upper (c : ascii) : bool := in_range 65 90 c.
Definition is_lower (c : ascii) : bool := in_range 97 122 c.

(** [\w] without the unicode flag: the 63 characters [A-Za-z0-9_]. *)
Definition is_word (c : ascii) : bool :=
  is_upper c || is_lower c || is_digit c || (code c =? 95)%N.

(** The line terminators that [.] refuses (LF and CR; U+2028 and U+2029 are
    outside the modelled range). *)
Definition is_line_terminator (c : ascii) : bool :=
  (code c =? 10)%N || (code c =? 13)%N.

(** [String.prototype.toLowerCase], one code unit at a time: [A-Z] and the
    Latin-1 capitals U+00C0..U+00DE (U+00D7, the multiplication sign, apart)
    move up by 32. *)
Definition lower_char (c : ascii) : ascii :=
  if is_upper c || (in_range 192 222 c && negb (code c =? 215)%N)
  then ascii_of_N (code c + 32)
  else c.

Definition toLowerCase (s : jsstring) : jsstring := map lower_char s.

(** [Canonicalize] of the regular-expression semantics under the [i] flag
    (no [u] flag): the upper-case form of the code unit.  A code unit of 128
    or more never canonicalises to one below 128, and the patterns below
    hold ASCII literals only, so it is left as it is. *)
Definition canonicalize (c : ascii) : ascii :=
  if is_lower c then ascii_of_N (code c - 32) else c.

(** [hay.startsWith(needle)], [hay.includes(needle)], [s.endsWith(suffix)]. *)
Fixpoint startsWith (needle hay : jsstring) : bool :=
  match needle, hay with
  | [], _ => true
  | _ :: _, [] => false
  | a :: needle', b :: hay' =>
      if decide (a = b) then startsWith needle' hay' else false
  end.

Fixpoint includes (needle hay : jsstring) : bool :=
  startsWith needle hay ||
  match hay with
  | [] => false
  | _ :: hay' => includes needle hay'
  end.

Definition endsWith (suffix s : jsstring) : bool :=
  startsWith (rev suffix) (rev s).

(** ** Regular expressions

    The fragment of ECMAScript patterns that the source uses: literals, the
    classes [\d], [\w] and [.], greedy [*] and [+] over one class,
    concatenation, alternation and numbered capturing groups, all under the
    [i] flag.  The matcher is the backtracking matcher of the language
    definition, in continuation-passing style: a continuation receives the
    rest of the input and the captures so far, and a failing continuation
    makes the matcher try its next choice. *)

Inductive CharSet : Type :=
| Lit (c : ascii)
| Digit
| Word
| Dot.

Inductive Regex : Type :=
| Eps
| Chr (cs : CharSet)
| Star (cs : CharSet)
| Plus (cs : CharSet)
| Cat (r1 r2 : Regex)
| Alt (r1 r2 : Regex)
| Group (i : nat) (r : Regex).

Definition accepts (cs : CharSet) (c : ascii) : bool :=
  match cs with
  | Lit a => if decide (canonicalize c = canonicalize a) then true else false
  | Digit => is_digit c
  | Word => is_word c
  | Dot => negb (is_line_terminator c)
  end.

Abbreviation Captures := (gmap nat jsstring).

Definition Continuation : Type := jsstring -> Captures -> option Captures.

(** The part of [s] consumed when [rest] is what remains of it. *)
Definition consumed (s rest : jsstring) : jsstring :=
  take (length s - length rest) s.

Fixpoint star_matcher (cs : CharSet) (s : jsstring) (caps : Captures)
    (k : Continuation) : option Captures :=
  match s with
  | c :: s' =>
      if accepts cs c then
        match star_matcher cs s' caps k with
        | Some r => Some r
        | None => k s caps
        end
      else k s caps
  | [] => k [] caps
  end.

Fixpoint matcher (r : Regex) (s : jsstring) (caps : Captures)
    (k : Continuation) : option Captures :=
  match r with
  | Eps => k s caps
  | Chr cs =>
      match s with
      | c :: s' => if accepts cs c then k s' caps else None
      | [] => None
      end
  | Star cs => star_matcher cs s caps k
  | Plus cs =>
      match s with
      | c :: s' => if accepts cs c then star_matcher cs s' caps k else None
      | [] => None
      end
  | Cat r1 r2 => matcher r1 s caps (fun s' caps' => matcher r2 s' caps' k)
  | Alt r1 r2 =>
      match matcher r1 s caps k with
      | Some res => Some res
      | None => matcher r2 s caps k
      end
  | Group i r' =>
      matcher r' s caps (fun s' caps' => k s' (<[i := consumed s s']> caps'))
  end.

(** [s.match(r)] for a pattern without the [g] flag: the first start index
    at which the pattern matches; group 0 is the whole match. *)
Fixpoint exec (r : Regex) (s : jsstring) : option Captures :=
  match matcher (Group 0 r) s ∅ (fun _ caps => Some caps) with
  | Some caps => Some caps
  | None =>
      match s with
      | [] => None
      | _ :: s' => exec r s'
      end
  end.

(** A literal string as a pattern. *)
Fixpoint lit (s : jsstring) : Regex :=
  match s with
  | [] => Eps
  | c :: s' => Cat (Chr (Lit c)) (lit s')
  end.

Declare Scope regex_scope.
Delimit Scope regex_scope with re.
Infix "+>" := Cat (at level 41, right associativity) : regex_scope.
Infix "</>" := Alt (at level 42, right associativity) : regex_scope.

(** The constant [SEQ_PATTERN] of the strict scanner: [Project_], any run of
    characters other than line terminators (group 1), [_Seq], one or more
    digits (group 2), [_], one or more word characters (group 3), a dot and
    one of [txt], [png], [wav], [mp4] (group 4); flag [i], no anchors. *)
Definition SEQ_PATTERN : Regex :=
  (lit (str "Project_") +> Group 1 (Star Dot) +> lit (str "_Seq") +>
   Group 2 (Plus Digit) +> lit (str "_") +> Group 3 (Plus Word) +>
   lit (str ".") +>
   Group 4 (lit (str "txt") </> lit (str "png") </> lit (str "wav") </>
            lit (str "mp4")))%re.

(** [/Seq(\d+)/i], written twice in the application: in the inlined scanner
    and in the drop handler. *)
Definition LOOSE_PATTERN : Regex :=
  (lit (str "Seq") +> Group 1 (Plus Digit))%re.

(** A capture of a match result.  Every group of the two patterns takes part
    in every match (lemmas [strict_groups_defined], [loose_group_defined]),
    so the default is never read. *)
Definition group (m : Captures) (i : nat) : jsstring := default [] (m !! i).

(** ** The file system, as the host environment presents it *)

Inductive HandleKind : Type := file | directory.

(** An entry of a directory.  [text] is what reading the file yields
    ([getFile()] followed by [text()]); [None] stands for a read that
    rejects. *)
Record FileSystemHandle : Type := {
  kind : HandleKind;
  name : jsstring;
  text : option jsstring
}.

(** An asynchronous iteration: the items it yields, in the order it yields
    them, ended by completion or by an exception. *)
Inductive Enumeration (A : Type) : Type :=
| Done
| Yield (item : A) (rest : Enumeration A)
| Throws.
Arguments Done {A}.
Arguments Yield {A} item rest.
Arguments Throws {A}.

Fixpoint emap {A B : Type} (f : A -> B) (it : Enumeration A) : Enumeration B :=
  match it with
  | Done => Done
  | Yield x rest => Yield (f x) (emap f rest)
  | Throws => Throws
  end.

(** An enumeration that yields the items of a list and completes. *)
Fixpoint yields {A : Type} (l : list A) : Enumeration A :=
  match l with
  | [] => Done
  | x :: l' => Yield x (yields l')
  end.

(** The states of a permission: [granted], [denied] and [prompt] (written
    [prompt_again], the application has a state variable [prompt]). *)
Inductive PermissionState : Type := granted | denied | prompt_again.

(** A directory handle: [permission] is what [requestPermission] resolves
    to, [values] the iteration over the entries of the directory. *)
Record FileSystemDirectoryHandle : Type := {
  dir_name : jsstring;
  permission : PermissionState;
  values : Enumeration FileSystemHandle
}.

(** [dirHandle.entries()] yields the pairs of an entry's name and handle. *)
Definition entries (dirHandle : FileSystemDirectoryHandle)
  : Enumeration (jsstring * FileSystemHandle) :=
  emap (fun h => (name h, h)) (values dirHandle).

(** ** The data model

    The objects [library] and [assets] of the source are used as maps from
    property names to values, and are modelled as finite maps: [m !! k] is
    the own property [k] of the object.  The one name that an object of
    the source does not store as an own property is [__proto__]: an
    assignment under it sets the prototype of the object, which the model
    does not hold, and makes no own property.  An entry of the strict
    scanner has the
    properties [id], [projectName] and [assets]; an entry of the loose
    scanner has [assets] alone, and its [id] and [projectName] read
    [None]. *)

Record SequenceEntry : Type := {
  id : option jsstring;
  projectName : option jsstring;
  assets : gmap jsstring FileSystemHandle
}.

Abbreviation Library := (gmap jsstring SequenceEntry).

(** [e.assets[key] = h], for a name [key] that becomes an own property. *)
Definition with_asset (key : jsstring) (h : FileSystemHandle)
    (e : SequenceEntry) : SequenceEntry :=
  {| id := id e; projectName := projectName e;
     assets := <[key := h]> (assets e) |}.

(** [e.assets[key] = h] for a computed [key]: under the name [__proto__]
    the assignment goes to the prototype of [assets] and the own properties
    stay as they are. *)
Definition assign_asset (key : jsstring) (h : FileSystemHandle)
    (e : SequenceEntry) : SequenceEntry :=
  if decide (key = str "__proto__") then e else with_asset key h e.

(** [for await (const x of it) library = body library x], started from
    [library]; [None] when the iteration throws. *)
Fixpoint for_await {A : Type} (body : Library -> A -> Library)
    (it : Enumeration A) (library : Library) : option Library :=
  match it with
  | Done => Some library
  | Yield x rest => for_await body rest (body library x)
  | Throws => None
  end.

(** ** The strict scanner *)

Module Scanner.

(** The match of a name against [SEQ_PATTERN] and the destructuring of
    its result into [projectName], [seqId] and [type]. *)
Definition recognize (name : jsstring)
  : option (jsstring * jsstring * jsstring) :=
  match exec SEQ_PATTERN name with
  | Some m => Some (group m 1, group m 2, group m 3)
  | None => None
  end.

(** The body of the loop of [scanSequences]. *)
Definition visit (library : Library) (entry : FileSystemHandle) : Library :=
  match kind entry with
  | file =>
      match recognize (name entry) with
      | Some (projectName, seqId, type) =>
          let library' :=
            match library !! seqId with
            | None =>
                <[seqId := {| id := Some seqId;
                              projectName := Some projectName;
                              assets := ∅ |}]> library
            | Some _ => library
            end in
          alter (assign_asset (toLowerCase type) entry) seqId library'
      | None => library
      end
  | directory => library
  end.

Definition scanSequences (dirHandle : FileSystemDirectoryHandle)
  : option Library :=
  for_await visit (values dirHandle) ∅.

End Scanner.

(** ** The stored directory of [lib/storage] *)

Abbreviation KeyValueStore := (gmap jsstring FileSystemDirectoryHandle).

Module Storage.

(** The handle stored under [project-root], handed out only when the
    permission request on it resolves to [granted]. *)
Definition getStoredDirectory (idb : KeyValueStore)
  : option FileSystemDirectoryHandle :=
  match idb !! str "project-root" with
  | Some handle =>
      match permission handle with
      | granted => Some handle
      | _ => None
      end
  | None => None
  end.

Definition saveDirectory (handle : FileSystemDirectoryHandle)
    (idb : KeyValueStore) : KeyValueStore :=
  <[str "project-root" := handle]> idb.

End Storage.

(** ** The application *)

Record AppState : Type := {
  prompt : jsstring;
  script : jsstring;
  isLoading : bool;
  generatedContent : jsstring;
  projectLibrary : Library;
  currentFolder : option FileSystemDirectoryHandle
}.

(** What a handler runs in: the state of the component, the key-value store
    and the lines written with [console.error]. *)
Record World : Type := {
  app : AppState;
  idb : KeyValueStore;
  console : list jsstring
}.

(** An asynchronous computation: it ends fulfilled with a value or rejected,
    and leaves a world behind in both cases. *)
Inductive Completion (A : Type) : Type :=
| Fulfilled (a : A)
| Rejected.
Arguments Fulfilled {A} a.
Arguments Rejected {A}.

Definition Async (A : Type) : Type := World -> Completion A * World.

Definition resolve {A : Type} (a : A) : Async A := fun w => (Fulfilled a, w).

Definition reject {A : Type} : Async A := fun w => (Rejected, w).

Definition await {A B : Type} (m : Async A) (k : A -> Async B) : Async B :=
  fun w =>
    match m w with
    | (Fulfilled a, w') => k a w'
    | (Rejected, w') => (Rejected, w')
    end.

(** [try { body } catch (e) { handler }] *)
Definition try_catch (body handler : Async ()) : Async () :=
  fun w =>
    match body w with
    | (Fulfilled _, w') => (Fulfilled (), w')
    | (Rejected, w') => handler w'
    end.

#[global] Instance Async_ret : MRet Async := @resolve.
#[global] Instance Async_bind : MBind Async := fun A B k m => await m k.

(** The value of a state variable, as the handler's closure holds it. *)
Definition state {A : Type} (field : AppState -> A) : Async A :=
  fun w => (Fulfilled (field (app w)), w).

Definition update (f : AppState -> AppState) : Async () :=
  fun w => (Fulfilled (), {| app := f (app w); idb := idb w;
                             console := console w |}).

Definition setPrompt (v : jsstring) : Async () :=
  update (fun s => {| prompt := v; script := script s;
                      isLoading := isLoading s;
                      generatedContent := generatedContent s;
                      projectLibrary := projectLibrary s;
                      currentFolder := currentFolder s |}).

Definition setScript (v : jsstring) : Async () :=
  update (fun s => {| prompt := prompt s; script := v;
                      isLoading := isLoading s;
                      generatedContent := generatedContent s;
                      projectLibrary := projectLibrary s;
                      currentFolder := currentFolder s |}).

Definition setProjectLibrary (v : Library) : Async () :=
  update (fun s => {| prompt := prompt s; script := script s;
                      isLoading := isLoading s;
                      generatedContent := generatedContent s;
                      projectLibrary := v;
                      currentFolder := currentFolder s |}).

Definition setCurrentFolder (v : option FileSystemDirectoryHandle)
  : Async () :=
  update (fun s => {| prompt := prompt s; script := script s;
                      isLoading := isLoading s;
                      generatedContent := generatedContent s;
                      projectLibrary := projectLibrary s;
                      currentFolder := v |}).

Definition setIsLoading (v : bool) : Async () :=
  update (fun s => {| prompt := prompt s; script := script s;
                      isLoading := v;
                      generatedContent := generatedContent s;
                      projectLibrary := projectLibrary s;
                      currentFolder := currentFolder s |}).

Definition setGeneratedContent (v : jsstring) : Async () :=
  update (fun s => {| prompt := prompt s; script := script s;
                      isLoading := isLoading s;
                      generatedContent := v;
                      projectLibrary := projectLibrary s;
                      currentFolder := currentFolder s |}).

Definition console_error (line : jsstring) : Async () :=
  fun w => (Fulfilled (), {| app := app w; idb := idb w;
                             console := console w ++ [line] |}).

(** A promise that is already settled. *)
Definition settled {A : Type} (o : option A) : Async A :=
  match o with
  | Some a => resolve a
  | None => reject
  end.

(** [try { body } catch (e) { handler } finally { finalizer }], for a
    handler and a finalizer that do not throw. *)
Definition try_catch_finally (body handler finalizer : Async ()) : Async () :=
  fun w =>
    match try_catch body handler w with
    | (Fulfilled _, w') => finalizer w'
    | (Rejected, w') =>
        match finalizer w' with
        | (_, w'') => (Rejected, w'')
        end
    end.

(** The generative service, as the application meets it: whether the
    constructor of the client returns, and what [models.generateContent]
    settles to for given contents: a rejection, or a response whose [text]
    is a string or is undefined. *)
Record GoogleGenAI : Type := {
  constructs : bool;
  generateContent : jsstring -> option (option jsstring)
}.

(** What the footer and the button of the header show. *)
Inductive Footer : Type :=
| SequencesActive (n : nat)
| NoDirectoryLinked.

Inductive ConnectButton : Type :=
| FolderName (n : jsstring)
| ConnectProjectFolder.

(** A file of a drop event; only its name is read. *)
Record File : Type := { fileName : jsstring }.

(** A string is falsy exactly when it is empty. *)
Definition truthy (s : jsstring) : bool :=
  match s with
  | [] => false
  | _ :: _ => true
  end.

Module App.

Definition STORAGE_KEY : jsstring := str "vibe_studio_handle".

(** The inlined storage helpers: the stored handle as it is, with no
    permission request. *)
Definition getStoredDirectory : Async (option FileSystemDirectoryHandle) :=
  fun w => (Fulfilled (idb w !! STORAGE_KEY), w).

Definition saveDirectory (handle : FileSystemDirectoryHandle) : Async () :=
  fun w => (Fulfilled (), {| app := app w;
                             idb := <[STORAGE_KEY := handle]> (idb w);
                             console := console w |}).

(** The recogniser of the inlined scanner: the match of the name, the
    test [match && match[1]] and the sequence ID [match[1]]. *)
Definition scanSeqId (name : jsstring) : option jsstring :=
  match exec LOOSE_PATTERN name with
  | Some m => if truthy (group m 1) then Some (group m 1) else None
  | None => None
  end.

(** The recogniser of the drop handler: the match of the file name, the
    test [KZ_match && KZ_match[1]] and the sequence ID [KZ_match[1]]. *)
Definition dropSeqId (fileName : jsstring) : option jsstring :=
  match exec LOOSE_PATTERN fileName with
  | Some KZ_match =>
      if truthy (group KZ_match 1) then Some (group KZ_match 1) else None
  | None => None
  end.

(** The body of the loop of the inlined [scanSequences]. *)
Definition visit (library : Library)
    (item : jsstring * FileSystemHandle) : Library :=
  let '(name, handle) := item in
  match kind handle with
  | file =>
      match scanSeqId name with
      | Some seqId =>
          let library' :=
            match library !! seqId with
            | None =>
                <[seqId := {| id := None; projectName := None;
                              assets := ∅ |}]> library
            | Some _ => library
            end in
          let lowerName := toLowerCase name in
          if includes (str "prompt") lowerName
             && endsWith (str ".txt") lowerName
          then alter (with_asset (str "prompt") handle) seqId library'
          else if endsWith (str ".txt") lowerName
          then alter (with_asset (str "script") handle) seqId library'
          else library'
      | None => library
      end
  | directory => library
  end.

Definition scanSequences (dirHandle : FileSystemDirectoryHandle)
  : Async Library :=
  settled (for_await visit (entries dirHandle) ∅).

(** The effect run on start-up. *)
Definition init : Async () :=
  handle ← getStoredDirectory;
  match handle with
  | Some handle =>
      setCurrentFolder (Some handle);;
      try_catch
        (library ← scanSequences handle;
         setProjectLibrary library)
        (console_error
           (str "Auto-scan failed (likely needs permission re-grant):"))
  | None => resolve ()
  end.

(** [showDirectoryPicker] is what the picker settles to: a handle, or a
    rejection when the user dismisses it. *)
Definition handleConnectFolder
    (showDirectoryPicker : option FileSystemDirectoryHandle) : Async () :=
  try_catch
    (handle ← settled showDirectoryPicker;
     saveDirectory handle;;
     setCurrentFolder (Some handle);;
     library ← scanSequences handle;
     setProjectLibrary library)
    (console_error (str "Folder access denied")).

(** [handle.getFile()] followed by [file.text()]. *)
Definition readText (handle : FileSystemHandle) : Async jsstring :=
  settled (text handle).

Definition handleFileDrop (droppedFiles : list File) : Async () :=
  projectLibrary ← state projectLibrary;
  match droppedFiles with
  | [] => resolve ()
  | first :: _ =>
      match dropSeqId (fileName first) with
      | Some seqId =>
          match projectLibrary !! seqId with
          | Some sequenceData =>
              match assets sequenceData !! str "prompt" with
              | Some handle => t ← readText handle; setPrompt t
              | None => resolve ()
              end;;
              match assets sequenceData !! str "script" with
              | Some handle => t ← readText handle; setScript t
              | None => resolve ()
              end
          | None => resolve ()
          end
      | None => resolve ()
      end
  end.

(** The generation handler; [genai] is the service it reaches. *)
Definition handleGenerate (genai : GoogleGenAI) : Async () :=
  prompt ← state prompt;
  if truthy prompt then
    setIsLoading true;;
    setGeneratedContent [];;
    (if constructs genai then resolve () else reject);;
    try_catch_finally
      (response ← settled (generateContent genai prompt);
       setGeneratedContent
         match response with
         | Some text => if truthy text then text else []
         | None => []
         end)
      (console_error (str "Generation failed");;
       setGeneratedContent
         (str "Error generating content. Please check console."))
      (setIsLoading false)
  else resolve ().

(** The footer: the number of keys of the library, when there are any. *)
Definition footer (s : AppState) : Footer :=
  if 0 <? size (projectLibrary s)
  then SequencesActive (size (projectLibrary s))
  else NoDirectoryLinked.

(** The button of the header: the name of the current folder, when there is
    one. *)
Definition connectButton (s : AppState) : ConnectButton :=
  match currentFolder s with
  | Some handle => FolderName (dir_name handle)
  | None => ConnectProjectFolder
  end.

End App.

(** * The vocabulary of the properties *)

(** ** The declarative reading of a pattern

    [Matches r s caps caps'] reads: the string [s], from end to end, is in
    the language of [r], and matching it turns the captures [caps] into
    [caps']. *)
Inductive Matches : Regex -> jsstring -> Captures -> Captures -> Prop :=
| M_Eps caps : Matches Eps [] caps caps
| M_Chr cs c caps :
    accepts cs c = true -> Matches (Chr cs) [c] caps caps
| M_Star cs s caps :
    Forall (fun c => accepts cs c = true) s -> Matches (Star cs) s caps caps
| M_Plus cs s caps :
    s ≠ [] -> Forall (fun c => accepts cs c = true) s ->
    Matches (Plus cs) s caps caps
| M_Cat r1 r2 s1 s2 caps caps' caps'' :
    Matches r1 s1 caps caps' -> Matches r2 s2 caps' caps'' ->
    Matches (Cat r1 r2) (s1 ++ s2) caps caps''
| M_AltL r1 r2 s caps caps' :
    Matches r1 s caps caps' -> Matches (Alt r1 r2) s caps caps'
| M_AltR r1 r2 s caps caps' :
    Matches r2 s caps caps' -> Matches (Alt r1 r2) s caps caps'
| M_Group i r s caps caps' :
    Matches r s caps caps' -> Matches (Group i r) s caps (<[i := s]> caps').

(** Equality up to case: what a literal of a pattern matches. *)
Definition ci_eq (s l : jsstring) : Prop :=
  map canonicalize s = map canonicalize l.

(** ** The two conventions, declaratively

    [strict_form s projectName seqId type ext]: the string [s] is
    [Project_<projectName>_Seq<seqId>_<type>.<ext>], the literals up to
    case. *)
Definition strict_form (s projectName seqId type ext : jsstring) : Prop :=
  ∃ p q,
    s = p ++ projectName ++ q ++ seqId ++ str "_" ++ type ++ str "." ++ ext ∧
    ci_eq p (str "Project_") ∧ ci_eq q (str "_Seq") ∧
    Forall (fun c => is_line_terminator c = false) projectName ∧
    seqId ≠ [] ∧ Forall (fun c => is_digit c = true) seqId ∧
    type ≠ [] ∧ Forall (fun c => is_word c = true) type ∧
    (ci_eq ext (str "txt") ∨ ci_eq ext (str "png") ∨
     ci_eq ext (str "wav") ∨ ci_eq ext (str "mp4")).

(** [loose_form s seqId]: the string [s] is [Seq<seqId>], up to case. *)
Definition loose_form (s seqId : jsstring) : Prop :=
  ∃ p, s = p ++ seqId ∧ ci_eq p (str "Seq") ∧
       seqId ≠ [] ∧ Forall (fun c => is_digit c = true) seqId.

(** A name holds a form when some substring of it has that form. *)
Definition holds (form : jsstring -> Prop) (name : jsstring) : Prop :=
  ∃ pre mid post, name = pre ++ mid ++ post ∧ form mid.

(** ** Enumerations and lists

    The items that an enumeration yields before it ends, and whether it ends
    by completion. *)
Fixpoint items {A : Type} (it : Enumeration A) : list A :=
  match it with
  | Yield x rest => x :: items rest
  | Done | Throws => []
  end.

Fixpoint completes {A : Type} (it : Enumeration A) : bool :=
  match it with
  | Done => true
  | Yield _ rest => completes rest
  | Throws => false
  end.

(** The value that [f] takes at the first item of [l] where it is defined,
    and at the last one. *)
Fixpoint first_match {A B : Type} (f : A -> option B) (l : list A)
  : option B :=
  match l with
  | [] => None
  | x :: l' =>
      match f x with
      | Some b => Some b
      | None => first_match f l'
      end
  end.

Fixpoint last_match {A B : Type} (f : A -> option B) (l : list A)
  : option B :=
  match l with
  | [] => None
  | x :: l' =>
      match last_match f l' with
      | Some b => Some b
      | None => f x
      end
  end.

(** ** One scanning loop for both scanners

    What a scanner makes of one item of the enumeration: the sequence ID it
    reads from it, the entry it creates when the ID is new, and the asset it
    files, if any. *)
Record Sighting : Type := {
  s_id : jsstring;
  s_fresh : SequenceEntry;
  s_asset : option (jsstring * FileSystemHandle)
}.

(** The body of a scanning loop, from what the scanner makes of an item: a
    sequence that is not in the library gets its fresh entry, and the asset
    is filed in the entry of the sequence. *)
Definition record {A : Type} (classify : A -> option Sighting)
    (library : Library) (x : A) : Library :=
  match classify x with
  | Some m =>
      let library' :=
        match library !! s_id m with
        | None => <[s_id m := s_fresh m]> library
        | Some _ => library
        end in
      match s_asset m with
      | Some (key, h) => alter (with_asset key h) (s_id m) library'
      | None => library'
      end
  | None => library
  end.

(** The sighting of the sequence [seqId] in an item, and the asset that the
    item files under [key] for that sequence. *)
Definition sighting_of {A : Type} (classify : A -> option Sighting)
    (seqId : jsstring) (x : A) : option Sighting :=
  match classify x with
  | Some m => if decide (s_id m = seqId) then Some m else None
  | None => None
  end.

Definition asset_of {A : Type} (classify : A -> option Sighting)
    (seqId key : jsstring) (x : A) : option FileSystemHandle :=
  match sighting_of classify seqId x with
  | Some m =>
      match s_asset m with
      | Some (k, h) => if decide (k = key) then Some h else None
      | None => None
      end
  | None => None
  end.

(** What the strict scanner makes of an entry of the directory; a name of
    kind [__proto__] files no asset. *)
Definition strict_sighting (entry : FileSystemHandle) : option Sighting :=
  match kind entry with
  | file =>
      match Scanner.recognize (name entry) with
      | Some (projectName, seqId, type) =>
          Some {| s_id := seqId;
                  s_fresh := {| id := Some seqId;
                                projectName := Some projectName;
                                assets := ∅ |};
                  s_asset :=
                    if decide (toLowerCase type = str "__proto__")
                    then None
                    else Some (toLowerCase type, entry) |}
      | None => None
      end
  | directory => None
  end.

(** The classification of the loose scanner: the key under which it files a
    name, if it files it. *)
Definition loose_kind (name : jsstring) : option jsstring :=
  let lowerName := toLowerCase name in
  if includes (str "prompt") lowerName && endsWith (str ".txt") lowerName
  then Some (str "prompt")
  else if endsWith (str ".txt") lowerName then Some (str "script")
  else None.

(** What the loose scanner makes of a pair of a name and a handle. *)
Definition loose_sighting (item : jsstring * FileSystemHandle)
  : option Sighting :=
  match kind item.2 with
  | file =>
      match App.scanSeqId item.1 with
      | Some seqId =>
          Some {| s_id := seqId;
                  s_fresh := {| id := None; projectName := None;
                                assets := ∅ |};
                  s_asset := (fun key => (key, item.2)) <$> loose_kind item.1 |}
      | None => None
      end
  | directory => None
  end.

(** An item of [entries()]: a handle under its name. *)
Definition named (h : FileSystemHandle) : jsstring * FileSystemHandle :=
  (name h, h).

(** ** Sample data *)

(** A file whose text is its name. *)
Definition a_file (n : string) : FileSystemHandle :=
  {| kind := file; name := str n; text := Some (str n) |}.
Arguments a_file n%_string.

(** A directory that enumerates the entries [l] and completes. *)
Definition folder (l : list FileSystemHandle) : FileSystemDirectoryHandle :=
  {| dir_name := str "Vibe-Studio"; permission := granted;
     values := yields l |}.

(** The world at start-up, nothing stored. *)
Definition blank : World :=
  {| app := {| prompt := []; script := []; isLoading := false;
               generatedContent := []; projectLibrary := ∅;
               currentFolder := None |};
     idb := ∅; console := [] |}.

(** A directory whose enumeration throws after one entry. *)
Definition broken_folder : FileSystemDirectoryHandle :=
  {| dir_name := str "Vibe-Studio"; permission := granted;
     values := Yield (a_file "Seq01_Script.txt") Throws |}.

(** A session at work: both fields filled, one sequence in the library. *)
Definition working : World :=
  {| app := {| prompt := str "a prompt"; script := str "a script";
               isLoading := false; generatedContent := [];
               projectLibrary :=
                 {[ str "07" := {| id := None; projectName := None;
                                   assets := {[ str "script" :=
                                                  a_file "Seq07.txt" ]} |} ]};
               currentFolder := None |};
     idb := {[ App.STORAGE_KEY := broken_folder ]}; console := [] |}.

(** A stored handle whose grant has lapsed: [requestPermission] would not
    resolve to [granted], and the enumeration rejects. *)
Definition stale_folder : FileSystemDirectoryHandle :=
  {| dir_name := str "Vibe-Studio"; permission := prompt_again;
     values := Throws |}.

(** The world after a reload: the state of the component is the initial one,
    the key-value store still holds the handle. *)
Definition reloaded : World :=
  {| app := app blank;
     idb := {[ App.STORAGE_KEY := stale_folder ]};
     console := [] |}.

(** ** Further vocabulary and sample data *)

(** The reading of a sequence ID by the loose pattern, as a relation: the
    name is cut into what comes before, the three letters, the ID and what
    follows; the ID is a whole run of digits, and no [Seq<digits>] starts
    earlier in the name. *)
Definition first_full_run (name seqId : jsstring) : Prop :=
  ∃ pre p post,
    name = pre ++ p ++ seqId ++ post ∧ ci_eq p (str "Seq") ∧
    seqId ≠ [] ∧ Forall (fun c => is_digit c = true) seqId ∧
    (∀ c post', post = c :: post' -> is_digit c = false) ∧
    (∀ a b, pre = a ++ b -> b ≠ [] ->
            ¬ ∃ s' mid rest,
                b ++ p ++ seqId ++ post = mid ++ rest ∧ loose_form mid s').

(** The sequence ID that the loose scanner reads from an entry of a
    directory, when it reads one. *)
Definition loose_id (h : FileSystemHandle) : option jsstring :=
  match kind h with
  | file => App.scanSeqId (name h)
  | directory => None
  end.

(** A session whose library holds a prompt file for sequence 01. *)
Definition with_prompt : World :=
  {| app := {| prompt := []; script := []; isLoading := false;
               generatedContent := [];
               projectLibrary :=
                 {[ str "01" :=
                      {| id := None; projectName := None;
                         assets :=
                           {[ str "prompt" :=
                                {| kind := file;
                                   name := str "Seq01_prompt.txt";
                                   text := Some (str "a city at dusk") |} ]}
                      |} ]};
               currentFolder := None |};
     idb := ∅; console := [] |}.

(** A service whose client is constructed and whose responses have no
    text. *)
Definition silent_service : GoogleGenAI :=
  {| constructs := true; generateContent := fun _ => Some None |}.

(** * Properties *)

(** ** The recognisers on sample names *)

Example recognize_plain :
  Scanner.recognize (str "Project_X_Seq01_Script.txt") =
  Some (str "X", str "01", str "Script").
Proof. by vm_compute. Qed.

(** The project name is greedy, the match starts where it can, and the
    case of the literals does not matter. *)
Example recognize_greedy :
  Scanner.recognize (str "xxproject_A_Seq1_B_seq22_C_d.TXT.bak") =
  Some (str "A_Seq1_B", str "22", str "C_d").
Proof. by vm_compute. Qed.

Example recognize_other_extension :
  Scanner.recognize (str "Project_X_Seq01_Script.jpg") = None.
Proof. by vm_compute. Qed.

Example scanSeqId_first_occurrence :
  App.scanSeqId (str "Seq_sEq7_seq8.txt") = Some (str "7").
Proof. by vm_compute. Qed.

Example loose_kind_samples :
  loose_kind (str "Seq01_PROMPT.TXT") = Some (str "prompt") ∧
  loose_kind (str "Seq01_notes.txt") = Some (str "script") ∧
  loose_kind (str "Seq01_prompt.png") = None.
Proof. repeat split; by vm_compute. Qed.

(** Two kinds of one sequence, the same kind twice in two cases, and a
    second project name for a sequence that has one. *)
Example strict_scan_sample :
  Scanner.scanSequences
    (folder [a_file "Project_X_Seq01_Script.txt";
             a_file "Project_Y_Seq01_Prompt.txt";
             a_file "Project_X_Seq01_SCRIPT.mp4";
             a_file "readme.md"]) =
  Some {[ str "01" :=
            {| id := Some (str "01"); projectName := Some (str "X");
               assets :=
                 {[ str "script" := a_file "Project_X_Seq01_SCRIPT.mp4";
                    str "prompt" := a_file "Project_Y_Seq01_Prompt.txt" ]}
            |} ]}.
Proof. by vm_compute. Qed.

(** ** The matcher against the declarative reading of a pattern *)

Lemma consumed_app (s1 s2 : jsstring) : consumed (s1 ++ s2) s2 = s1.
Proof.
  unfold consumed. rewrite length_app.
  replace (length s1 + length s2 - length s2) with (length s1) by lia.
  apply take_app_length.
Qed.

Lemma star_matcher_sound cs s caps k res :
  star_matcher cs s caps k = Some res ->
  ∃ s1 s2, s = s1 ++ s2 ∧ Forall (fun c => accepts cs c = true) s1 ∧
           k s2 caps = Some res.
Proof.
  induction s as [|c s IH]; simpl; intros H.
  - exists [], []. auto.
  - destruct (accepts cs c) eqn:Hc.
    + destruct (star_matcher cs s caps k) as [r|] eqn:Hr.
      * destruct (IH H) as (s1 & s2 & -> & Hall & Hk).
        exists (c :: s1), s2. repeat split; [by constructor | congruence].
      * exists [], (c :: s). auto.
    + exists [], (c :: s). auto.
Qed.

Lemma matcher_sound r :
  ∀ s caps k res,
    matcher r s caps k = Some res ->
    ∃ s1 s2 caps', s = s1 ++ s2 ∧ Matches r s1 caps caps' ∧
                   k s2 caps' = Some res.
Proof.
  induction r as [|cs|cs|cs|r1 IH1 r2 IH2|r1 IH1 r2 IH2|i r IH];
    simpl; intros s caps k res H.
  - exists [], s, caps. repeat split; [constructor | done].
  - destruct s as [|c s]; [done|]. destruct (accepts cs c) eqn:Hc; [|done].
    exists [c], s, caps. repeat split; [by constructor | done].
  - apply star_matcher_sound in H as (s1 & s2 & -> & Hall & Hk).
    exists s1, s2, caps. repeat split; [by constructor | done].
  - destruct s as [|c s]; [done|]. destruct (accepts cs c) eqn:Hc; [|done].
    apply star_matcher_sound in H as (s1 & s2 & -> & Hall & Hk).
    exists (c :: s1), s2, caps. repeat split; [|done].
    constructor; [done | by constructor].
  - apply IH1 in H as (s1 & s' & caps' & -> & H1 & H).
    apply IH2 in H as (s2 & s3 & caps'' & -> & H2 & Hk).
    exists (s1 ++ s2), s3, caps''. rewrite <- app_assoc.
    repeat split; [by econstructor | done].
  - destruct (matcher r1 s caps k) as [res'|] eqn:H1.
    + apply IH1 in H1 as (s1 & s2 & caps' & -> & Hm & Hk).
      exists s1, s2, caps'. repeat split; [by apply M_AltL | congruence].
    + apply IH2 in H as (s1 & s2 & caps' & -> & Hm & Hk).
      exists s1, s2, caps'. repeat split; [by apply M_AltR | done].
  - apply IH in H as (s1 & s2 & caps' & -> & Hm & Hk).
    rewrite consumed_app in Hk.
    exists s1, s2, (<[i := s1]> caps'). repeat split; [by constructor | done].
Qed.

Lemma star_matcher_tries_rest cs s caps k :
  is_Some (k s caps) -> is_Some (star_matcher cs s caps k).
Proof.
  destruct s as [|c s]; simpl; [done|]. intros Hk.
  destruct (accepts cs c); [|done].
  by destruct (star_matcher cs s caps k).
Qed.

Lemma star_matcher_complete cs s1 s2 caps k :
  Forall (fun c => accepts cs c = true) s1 ->
  is_Some (k s2 caps) ->
  is_Some (star_matcher cs (s1 ++ s2) caps k).
Proof.
  intros Hall Hk. induction Hall as [|c s1 Hc _ IH]; simpl.
  - by apply star_matcher_tries_rest.
  - rewrite Hc. destruct IH as [res ->]. by eexists.
Qed.

(** Whatever the captures, a continuation that accepts the rest of the input
    makes the matcher succeed on a string of the language followed by that
    rest: backtracking loses no match. *)
Lemma matcher_complete r s1 caps0 caps0' :
  Matches r s1 caps0 caps0' ->
  ∀ s2 caps (k : Continuation),
    (∀ caps', is_Some (k s2 caps')) ->
    is_Some (matcher r (s1 ++ s2) caps k).
Proof.
  induction 1 as [c0|cs c c0 Hc|cs s c0 Hall|cs s c0 Hne Hall
                 |r1 r2 s1 s2' c0 c0' c0'' _ IH1 _ IH2
                 |r1 r2 s c0 c0' _ IH|r1 r2 s c0 c0' _ IH
                 |i r s c0 c0' _ IH];
    intros s2 caps k Hk; simpl.
  - apply Hk.
  - rewrite Hc. apply Hk.
  - by apply star_matcher_complete.
  - destruct Hall as [|c s Hc Hall]; [done|]. simpl. rewrite Hc.
    by apply star_matcher_complete.
  - rewrite <- app_assoc. apply IH1. intros caps'. by apply IH2.
  - destruct (IH s2 caps k Hk) as [res ->]. by eexists.
  - destruct (matcher r1 (s ++ s2) caps k); [by eexists|]. by apply IH.
  - apply IH. intros caps'. apply Hk.
Qed.

Lemma exec_sound r s m :
  exec r s = Some m ->
  ∃ pre mid post caps,
    s = pre ++ mid ++ post ∧ Matches r mid ∅ caps ∧ m = <[0 := mid]> caps.
Proof.
  induction s as [|c s IH]; simpl.
  - destruct (matcher r [] ∅ _) as [res|] eqn:Hm; [|done].
    intros [= <-]. apply matcher_sound in Hm as (s1 & s2 & caps & Hs & Hm & Hk).
    rewrite Hs, consumed_app in Hk. injection Hk as <-.
    by exists [], s1, s2, caps.
  - destruct (matcher r (c :: s) ∅ _) as [res|] eqn:Hm.
    + intros [= <-].
      apply matcher_sound in Hm as (s1 & s2 & caps & Hs & Hm & Hk).
      rewrite Hs, consumed_app in Hk. injection Hk as <-.
      by exists [], s1, s2, caps.
    + intros H. destruct (IH H) as (pre & mid & post & caps & -> & Hm' & ->).
      by exists (c :: pre), mid, post, caps.
Qed.

Lemma exec_complete r pre mid post caps0 caps0' :
  Matches r mid caps0 caps0' -> is_Some (exec r (pre ++ mid ++ post)).
Proof.
  intros Hm.
  assert (Hhere : is_Some (matcher (Group 0 r) (mid ++ post) ∅
                             (fun _ caps => Some caps))).
  { apply (matcher_complete (Group 0 r) mid caps0 (<[0 := mid]> caps0'));
      [by constructor | by eexists]. }
  induction pre as [|c pre IH]; simpl.
  - destruct Hhere as [res Hres]. simpl in Hres.
    destruct (mid ++ post); simpl; rewrite Hres; by eexists.
  - destruct (matcher r (c :: pre ++ mid ++ post) ∅ _); [by eexists | done].
Qed.

Lemma Matches_lit l s caps caps' :
  Matches (lit l) s caps caps' ↔ ci_eq s l ∧ caps' = caps.
Proof.
  revert s caps caps'. induction l as [|a l IH]; simpl; intros s caps caps'.
  - split.
    + inversion 1; subst. by split.
    + intros [Hs ->]. destruct s; [constructor | done].
  - split.
    + inversion 1 as [| | | |? ? s1 s2 ? c1 ? H1 H2| | |]; subst.
      inversion H1 as [|? c ? Hc| | | | | |]; subst.
      apply IH in H2 as [H2 ->]. split; [|done].
      unfold ci_eq in *. simpl in *. case_decide; [|done]. by f_equal.
    + intros [Hs ->]. destruct s as [|c s]; [done|].
      injection Hs as Hc Hs. apply (M_Cat _ _ [c] s caps caps caps).
      * constructor. simpl. by case_decide.
      * apply IH. by split.
Qed.

Lemma Matches_Cat r1 r2 s caps caps'' :
  Matches (Cat r1 r2) s caps caps'' ->
  ∃ s1 s2 caps', s = s1 ++ s2 ∧ Matches r1 s1 caps caps' ∧
                 Matches r2 s2 caps' caps''.
Proof. inversion 1; subst. eauto 6. Qed.

Lemma Matches_Group i r s caps caps'' :
  Matches (Group i r) s caps caps'' ->
  ∃ caps', Matches r s caps caps' ∧ caps'' = <[i := s]> caps'.
Proof. inversion 1; subst. eauto. Qed.

Lemma Matches_Star cs s caps caps' :
  Matches (Star cs) s caps caps' ->
  Forall (fun c => accepts cs c = true) s ∧ caps' = caps.
Proof. inversion 1; subst. eauto. Qed.

Lemma Matches_Plus cs s caps caps' :
  Matches (Plus cs) s caps caps' ->
  s ≠ [] ∧ Forall (fun c => accepts cs c = true) s ∧ caps' = caps.
Proof. inversion 1; subst. eauto. Qed.

Lemma Matches_Alt r1 r2 s caps caps' :
  Matches (Alt r1 r2) s caps caps' ->
  Matches r1 s caps caps' ∨ Matches r2 s caps caps'.
Proof. inversion 1; subst; eauto. Qed.

(** The underscore and the dot have no other case. *)
Lemma ci_eq_underscore s : ci_eq s (str "_") -> s = str "_".
Proof.
  destruct s as [|c [|? ?]]; [done| |done]. intros [= H]. f_equal.
  revert H. destruct c as [[] [] [] [] [] [] [] []]; vm_compute; congruence.
Qed.

Lemma ci_eq_dot s : ci_eq s (str ".") -> s = str ".".
Proof.
  destruct s as [|c [|? ?]]; [done| |done]. intros [= H]. f_equal.
  revert H. destruct c as [[] [] [] [] [] [] [] []]; vm_compute; congruence.
Qed.

Lemma ci_eq_refl s : ci_eq s s.
Proof. done. Qed.

Lemma ci_eq_app_inv s a l :
  ci_eq s (a :: l) -> ∃ c s', s = c :: s' ∧ ci_eq [c] [a] ∧ ci_eq s' l.
Proof.
  destruct s as [|c s']; [done|]. intros [= Hc Hs].
  exists c, s'. repeat split; [|done]. unfold ci_eq. simpl. by f_equal.
Qed.

Lemma Forall_dot s :
  Forall (fun c => accepts Dot c = true) s ↔
  Forall (fun c => is_line_terminator c = false) s.
Proof.
  apply Forall_proper; [|done]. intros c. simpl.
  by destruct (is_line_terminator c).
Qed.

Lemma Matches_SEQ_PATTERN s caps caps' :
  Matches SEQ_PATTERN s caps caps' ↔
  ∃ projectName seqId type ext,
    strict_form s projectName seqId type ext ∧
    caps' = <[4 := ext]> (<[3 := type]> (<[2 := seqId]>
              (<[1 := projectName]> caps))).
Proof.
  unfold SEQ_PATTERN. split.
  - intros H.
    apply Matches_Cat in H as (p & s1 & c1 & -> & Hp & H).
    apply Matches_lit in Hp as [Hp ->].
    apply Matches_Cat in H as (n & s2 & c2 & -> & Hn & H).
    apply Matches_Group in Hn as (c2' & Hn & ->).
    apply Matches_Star in Hn as [Hn ->].
    apply Matches_Cat in H as (q & s3 & c3 & -> & Hq & H).
    apply Matches_lit in Hq as [Hq ->].
    apply Matches_Cat in H as (d & s4 & c4 & -> & Hd & H).
    apply Matches_Group in Hd as (c4' & Hd & ->).
    apply Matches_Plus in Hd as (Hd0 & Hd & ->).
    apply Matches_Cat in H as (u & s5 & c5 & -> & Hu & H).
    apply Matches_lit in Hu as [Hu ->]. apply ci_eq_underscore in Hu as ->.
    apply Matches_Cat in H as (k & s6 & c6 & -> & Hk & H).
    apply Matches_Group in Hk as (c6' & Hk & ->).
    apply Matches_Plus in Hk as (Hk0 & Hk & ->).
    apply Matches_Cat in H as (dot & ext & c7 & -> & Hdot & H).
    apply Matches_lit in Hdot as [Hdot ->]. apply ci_eq_dot in Hdot as ->.
    apply Matches_Group in H as (c8 & H & ->).
    exists n, d, k, ext. split.
    + exists p, q. apply Forall_dot in Hn. repeat split; try done.
      apply Matches_Alt in H as [H|H]; [apply Matches_lit in H as [H _]; auto|].
      apply Matches_Alt in H as [H|H]; [apply Matches_lit in H as [H _]; auto|].
      apply Matches_Alt in H as [H|H]; apply Matches_lit in H as [H _]; auto.
    + f_equal.
      apply Matches_Alt in H as [H|H]; [by apply Matches_lit in H as [_ ->]|].
      apply Matches_Alt in H as [H|H]; [by apply Matches_lit in H as [_ ->]|].
      by apply Matches_Alt in H as [H|H]; apply Matches_lit in H as [_ ->].
  - intros (n & d & k & ext & (p & q & -> & Hp & Hq & Hn & Hd0 & Hd & Hk0 & Hk
                              & Hext) & ->).
    apply Forall_dot in Hn.
    eapply M_Cat; [by apply Matches_lit|].
    eapply M_Cat; [by apply M_Group, M_Star|].
    eapply M_Cat; [by apply Matches_lit|].
    eapply M_Cat; [by apply M_Group, M_Plus|].
    eapply M_Cat; [by apply Matches_lit|].
    eapply M_Cat; [by apply M_Group, M_Plus|].
    eapply M_Cat; [by apply Matches_lit|].
    apply M_Group.
    destruct Hext as [H|[H|[H|H]]].
    + by apply M_AltL, Matches_lit.
    + by apply M_AltR, M_AltL, Matches_lit.
    + by apply M_AltR, M_AltR, M_AltL, Matches_lit.
    + by apply M_AltR, M_AltR, M_AltR, Matches_lit.
Qed.

Lemma Matches_LOOSE_PATTERN s caps caps' :
  Matches LOOSE_PATTERN s caps caps' ↔
  ∃ seqId, loose_form s seqId ∧ caps' = <[1 := seqId]> caps.
Proof.
  unfold LOOSE_PATTERN. split.
  - intros H.
    apply Matches_Cat in H as (p & d & c1 & -> & Hp & H).
    apply Matches_lit in Hp as [Hp ->].
    apply Matches_Group in H as (c2 & H & ->).
    apply Matches_Plus in H as (Hd0 & Hd & ->).
    exists d. split; [|done]. by exists p.
  - intros (d & (p & -> & Hp & Hd0 & Hd) & ->).
    eapply M_Cat; [by apply Matches_lit|]. by apply M_Group, M_Plus.
Qed.

Lemma truthy_nonempty s : s ≠ [] -> truthy s = true.
Proof. by destruct s. Qed.

(** ** The recognisers against the two forms *)

Lemma strict_groups_defined name m :
  exec SEQ_PATTERN name = Some m ->
  ∃ pre mid post projectName seqId type ext,
    name = pre ++ mid ++ post ∧
    strict_form mid projectName seqId type ext ∧
    m !! 0 = Some mid ∧ m !! 1 = Some projectName ∧ m !! 2 = Some seqId ∧
    m !! 3 = Some type ∧ m !! 4 = Some ext.
Proof.
  intros H. apply exec_sound in H as (pre & mid & post & caps & -> & H & ->).
  apply Matches_SEQ_PATTERN in H as (n & d & k & ext & Hform & ->).
  exists pre, mid, post, n, d, k, ext. by simplify_map_eq.
Qed.

Lemma loose_group_defined name m :
  exec LOOSE_PATTERN name = Some m ->
  ∃ pre mid post seqId,
    name = pre ++ mid ++ post ∧ loose_form mid seqId ∧
    m !! 0 = Some mid ∧ m !! 1 = Some seqId.
Proof.
  intros H. apply exec_sound in H as (pre & mid & post & caps & -> & H & ->).
  apply Matches_LOOSE_PATTERN in H as (d & Hform & ->).
  exists pre, mid, post, d. by simplify_map_eq.
Qed.

Lemma recognize_sound name projectName seqId type :
  Scanner.recognize name = Some (projectName, seqId, type) ->
  ∃ ext, holds (fun mid => strict_form mid projectName seqId type ext) name.
Proof.
  unfold Scanner.recognize. destruct (exec SEQ_PATTERN name) as [m|] eqn:H;
    [|done].
  apply strict_groups_defined in H
    as (pre & mid & post & n & d & k & ext & -> & Hform & _ & H1 & H2 & H3 & _).
  unfold group. rewrite H1, H2, H3. simpl. intros [= <- <- <-].
  by exists ext, pre, mid, post.
Qed.

Lemma recognize_complete name projectName seqId type ext :
  holds (fun mid => strict_form mid projectName seqId type ext) name ->
  is_Some (Scanner.recognize name).
Proof.
  intros (pre & mid & post & -> & Hform).
  assert (Hm : Matches SEQ_PATTERN mid ∅
                 (<[4 := ext]> (<[3 := type]> (<[2 := seqId]>
                    (<[1 := projectName]> ∅))))).
  { apply Matches_SEQ_PATTERN. by exists projectName, seqId, type, ext. }
  destruct (exec_complete _ pre _ post _ _ Hm) as [m Hex].
  unfold Scanner.recognize. rewrite Hex. by eexists.
Qed.

Lemma scanSeqId_sound name seqId :
  App.scanSeqId name = Some seqId ->
  holds (fun mid => loose_form mid seqId) name.
Proof.
  unfold App.scanSeqId. destruct (exec LOOSE_PATTERN name) as [m|] eqn:H;
    [|done].
  apply loose_group_defined in H as (pre & mid & post & d & -> & Hform & _ & H1).
  unfold group. rewrite H1. simpl. destruct (truthy d); [|done].
  intros [= <-]. by exists pre, mid, post.
Qed.

Lemma scanSeqId_complete name seqId :
  holds (fun mid => loose_form mid seqId) name ->
  is_Some (App.scanSeqId name).
Proof.
  intros (pre & mid & post & -> & Hform).
  assert (Hm : Matches LOOSE_PATTERN mid ∅ (<[1 := seqId]> ∅)).
  { apply Matches_LOOSE_PATTERN. by exists seqId. }
  destruct (exec_complete _ pre _ post _ _ Hm) as [m Hex].
  unfold App.scanSeqId. rewrite Hex.
  apply loose_group_defined in Hex
    as (pre' & mid' & post' & d & _ & (p & _ & _ & Hd0 & _) & _ & H1).
  unfold group. rewrite H1. simpl. rewrite (truthy_nonempty d Hd0).
  by eexists.
Qed.

Lemma scanSeqId_None_iff name :
  App.scanSeqId name = None ↔ ¬ ∃ seqId, holds (fun mid => loose_form mid seqId) name.
Proof.
  split.
  - intros HNone (seqId & H). apply scanSeqId_complete in H as [s H].
    congruence.
  - intros Hno. destruct (App.scanSeqId name) as [s|] eqn:H; [|done].
    apply scanSeqId_sound in H. destruct Hno. by exists s.
Qed.

Lemma recognize_None_iff name :
  Scanner.recognize name = None ↔
  ¬ ∃ projectName seqId type ext,
      holds (fun mid => strict_form mid projectName seqId type ext) name.
Proof.
  split.
  - intros HNone (n & d & k & ext & H).
    apply recognize_complete in H as [r H]. congruence.
  - intros Hno.
    destruct (Scanner.recognize name) as [[[n d] k]|] eqn:H; [|done].
    apply recognize_sound in H as [ext H]. destruct Hno. by exists n, d, k, ext.
Qed.

(** A name that the strict pattern matches holds [Seq<digits>]. *)
Lemma strict_form_holds_loose mid projectName seqId type ext :
  strict_form mid projectName seqId type ext ->
  holds (fun mid' => loose_form mid' seqId) mid.
Proof.
  intros (p & q & -> & Hp & Hq & _ & Hd0 & Hd & _).
  apply ci_eq_app_inv in Hq as (u & q' & -> & _ & Hq').
  exists (p ++ projectName ++ [u]), (q' ++ seqId),
         (str "_" ++ type ++ str "." ++ ext).
  split.
  - by rewrite <- !app_assoc.
  - by exists q'.
Qed.

Lemma holds_within (form : jsstring -> Prop) pre mid post :
  holds form mid -> holds form (pre ++ mid ++ post).
Proof.
  intros (pre' & mid' & post' & -> & H).
  exists (pre ++ pre'), mid', (post' ++ post). split; [|done].
  by rewrite <- !app_assoc.
Qed.

(** ** Enumerations *)

Lemma for_await_spec {A : Type} (body : Library -> A -> Library) it library :
  for_await body it library =
  if completes it then Some (foldl body library (items it)) else None.
Proof. revert library. induction it; simpl; auto. Qed.

Lemma items_emap {A B : Type} (f : A -> B) it :
  items (emap f it) = map f (items it).
Proof. induction it; simpl; congruence. Qed.

Lemma completes_emap {A B : Type} (f : A -> B) it :
  completes (emap f it) = completes it.
Proof. induction it; simpl; congruence. Qed.



(** ** The first and the last item of a list that a partial function takes *)

Section Matches_of_lists.
Context {A B : Type} (f : A -> option B).

Lemma first_match_snoc l x :
  first_match f (l ++ [x]) =
  match first_match f l with Some b => Some b | None => f x end.
Proof.
  induction l as [|y l IH]; simpl; [by destruct (f x)|].
  by destruct (f y).
Qed.

Lemma last_match_snoc l x :
  last_match f (l ++ [x]) =
  match f x with Some b => Some b | None => last_match f l end.
Proof.
  induction l as [|y l IH]; simpl; [by destruct (f x)|]. rewrite IH.
  by destruct (f x), (last_match f l).
Qed.

Lemma first_match_None l :
  first_match f l = None ↔ Forall (fun x => f x = None) l.
Proof.
  induction l as [|y l IH]; simpl; [by split|].
  rewrite Forall_cons. destruct (f y); [|tauto]. split; [done|].
  by intros [? _].
Qed.

Lemma last_match_None l :
  last_match f l = None ↔ Forall (fun x => f x = None) l.
Proof.
  induction l as [|y l IH]; simpl; [by split|].
  rewrite Forall_cons. destruct (last_match f l) as [b|].
  - split; [done|]. intros [_ H]. by apply IH in H.
  - tauto.
Qed.

Lemma first_match_Some l b :
  first_match f l = Some b ↔
  ∃ l1 x l2, l = l1 ++ x :: l2 ∧ f x = Some b ∧
             Forall (fun y => f y = None) l1.
Proof.
  induction l as [|y l IH]; simpl.
  - split; [done|]. intros (l1 & x & l2 & H & _). by destruct l1.
  - destruct (f y) as [b'|] eqn:Hy.
    + split.
      * intros [= ->]. by exists [], y, l.
      * intros (l1 & x & l2 & H & Hx & Hl1). destruct l1 as [|z l1].
        -- injection H as -> ->. congruence.
        -- injection H as -> ->. apply Forall_cons in Hl1 as [Hz _].
           congruence.
    + rewrite IH. split.
      * intros (l1 & x & l2 & -> & Hx & Hl1).
        exists (y :: l1), x, l2. repeat split; [done|]. by constructor.
      * intros (l1 & x & l2 & H & Hx & Hl1). destruct l1 as [|z l1].
        -- injection H as -> ->. congruence.
        -- injection H as -> ->. apply Forall_cons in Hl1 as [_ Hl1].
           by exists l1, x, l2.
Qed.

Lemma last_match_Some l b :
  last_match f l = Some b ↔
  ∃ l1 x l2, l = l1 ++ x :: l2 ∧ f x = Some b ∧
             Forall (fun y => f y = None) l2.
Proof.
  induction l as [|y l IH]; simpl.
  - split; [done|]. intros (l1 & x & l2 & H & _). by destruct l1.
  - destruct (last_match f l) as [b'|] eqn:Hl.
    + split.
      * intros [= ->]. destruct IH as [IH _].
        destruct (IH eq_refl) as (l1 & x & l2 & -> & Hx & Hl2).
        by exists (y :: l1), x, l2.
      * intros (l1 & x & l2 & H & Hx & Hl2). destruct l1 as [|z l1].
        -- injection H as -> ->. apply last_match_None in Hl2. congruence.
        -- injection H as -> ->. apply IH. by exists l1, x, l2.
    + apply last_match_None in Hl. split.
      * intros Hy. by exists [], y, l.
      * intros (l1 & x & l2 & H & Hx & Hl2). destruct l1 as [|z l1].
        -- injection H as -> ->. done.
        -- injection H as -> ->. apply Forall_app in Hl as [_ Hl].
           apply Forall_cons in Hl as [Hl _]. congruence.
Qed.

Lemma first_match_elem l x b :
  x ∈ l -> f x = Some b -> is_Some (first_match f l).
Proof.
  intros Hin Hx. destruct (first_match f l) eqn:H; [by eexists|].
  apply first_match_None in H. rewrite Forall_forall in H.
  apply H in Hin. congruence.
Qed.

End Matches_of_lists.

Lemma Scanner_visit_record library entry :
  Scanner.visit library entry = record strict_sighting library entry.
Proof.
  unfold Scanner.visit, record, strict_sighting.
  destruct (kind entry); [|done].
  destruct (Scanner.recognize (name entry)) as [[[p s] t]|]; [|done].
  simpl. unfold assign_asset. case_decide; [|done].
  apply alter_id. by intros.
Qed.

Lemma App_visit_record library item :
  App.visit library item = record loose_sighting library item.
Proof.
  destruct item as [name handle].
  unfold App.visit, record, loose_sighting, loose_kind. simpl.
  destruct (kind handle); [|done].
  destruct (App.scanSeqId name) as [s|]; [|done]. simpl.
  destruct (includes _ _ && endsWith _ _); [done|].
  by destruct (endsWith _ _).
Qed.

Section Scan.
Context {A : Type} (classify : A -> option Sighting).
Hypothesis fresh_empty :
  ∀ x m, classify x = Some m -> assets (s_fresh m) = ∅.

(** One step of the loop, seen from one sequence ID: a sighting of the ID
    goes into the entry that is there, or into a fresh one. *)
Lemma record_lookup library x seqId :
  record classify library x !! seqId =
  match sighting_of classify seqId x with
  | Some m =>
      let e := default (s_fresh m) (library !! seqId) in
      Some match s_asset m with
           | Some (key, h) => with_asset key h e
           | None => e
           end
  | None => library !! seqId
  end.
Proof.
  unfold record, sighting_of. destruct (classify x) as [m|]; [|done].
  destruct (decide (s_id m = seqId)) as [<-|Hne].
  - destruct (library !! s_id m) as [e|] eqn:He; simpl;
      destruct (s_asset m) as [[key h]|]; simpl.
    + by rewrite lookup_alter_eq, He.
    + done.
    + by rewrite lookup_alter_eq, lookup_insert_eq.
    + by rewrite lookup_insert_eq.
  - destruct (library !! s_id m) as [e|] eqn:He; simpl;
      destruct (s_asset m) as [[key h]|]; simpl;
      rewrite ?lookup_alter_ne, ?lookup_insert_ne by done; done.
Qed.

Lemma asset_of_None seqId key l :
  Forall (fun x => sighting_of classify seqId x = None) l ->
  last_match (asset_of classify seqId key) l = None.
Proof.
  intros H. apply last_match_None. eapply Forall_impl; [exact H|].
  intros x Hx. unfold asset_of. by rewrite Hx.
Qed.

(** The entry of a sequence after a scan of the items [l]: its fields are
    those of the first sighting, each key of its assets holds the last
    asset filed under it. *)
Lemma scan_lookup l seqId :
  match foldl (record classify) ∅ l !! seqId with
  | Some e =>
      (∃ m, first_match (sighting_of classify seqId) l = Some m ∧
            id e = id (s_fresh m) ∧
            projectName e = projectName (s_fresh m)) ∧
      ∀ key, assets e !! key = last_match (asset_of classify seqId key) l
  | None => Forall (fun x => sighting_of classify seqId x = None) l
  end.
Proof.
  induction l as [|x l IH] using rev_ind;
    [simpl; rewrite lookup_empty; constructor|].
  rewrite foldl_app. simpl. rewrite record_lookup.
  destruct (sighting_of classify seqId x) as [m|] eqn:Hx.
  - assert (Hfresh : assets (s_fresh m) = ∅).
    { unfold sighting_of in Hx. destruct (classify x) as [m'|] eqn:Hc;
        [|done]. case_decide; [|done]. injection Hx as ->. eauto. }
    assert (Hkey : ∀ key,
               asset_of classify seqId key x =
               match s_asset m with
               | Some (k, h) => if decide (k = key) then Some h else None
               | None => None
               end).
    { intros key. unfold asset_of. by rewrite Hx. }
    destruct (foldl (record classify) ∅ l !! seqId) as [e|] eqn:He; simpl.
    + destruct IH as [(m0 & Hfirst & Hid & Hpn) Hassets]. split.
      * exists m0. rewrite first_match_snoc, Hfirst.
        by destruct (s_asset m) as [[key h]|].
      * intros key. rewrite last_match_snoc, Hkey.
        destruct (s_asset m) as [[k h]|]; simpl; [|done].
        case_decide as Hk.
        -- subst. by rewrite lookup_insert_eq.
        -- by rewrite lookup_insert_ne.
    + split.
      * exists m. apply first_match_None in IH.
        rewrite first_match_snoc, IH, Hx.
        by destruct (s_asset m) as [[key h]|].
      * intros key. rewrite last_match_snoc, Hkey, (asset_of_None _ _ _ IH).
        destruct (s_asset m) as [[k h]|]; simpl.
        -- rewrite Hfresh. case_decide as Hk.
           ++ subst. by rewrite lookup_insert_eq.
           ++ by rewrite lookup_insert_ne.
        -- by rewrite Hfresh.
  - assert (Hkey : ∀ key, asset_of classify seqId key x = None).
    { intros key. unfold asset_of. by rewrite Hx. }
    destruct (foldl (record classify) ∅ l !! seqId) as [e|] eqn:He.
    + destruct IH as [(m0 & Hfirst & Hid & Hpn) Hassets]. split.
      * exists m0. by rewrite first_match_snoc, Hfirst.
      * intros key. by rewrite last_match_snoc, Hkey.
    + apply Forall_app. split; [done|]. by constructor.
Qed.

(** The keys of the library are the sequence IDs sighted. *)
Lemma scan_lookup_is_Some l seqId :
  is_Some (foldl (record classify) ∅ l !! seqId) ↔
  ∃ x, x ∈ l ∧ is_Some (sighting_of classify seqId x).
Proof.
  pose proof (scan_lookup l seqId) as H.
  destruct (foldl (record classify) ∅ l !! seqId) as [e|]; split.
  - intros _. destruct H as [(m & Hfirst & _) _].
    apply first_match_Some in Hfirst as (l1 & x & l2 & -> & Hx & _).
    exists x. split; [|by eexists]. apply elem_of_app. right. by left.
  - by eexists.
  - by intros [? ?].
  - intros (x & Hin & [m Hx]). rewrite Forall_forall in H.
    apply H in Hin. congruence.
Qed.

(** An item without a sighting leaves the library as it is. *)
Lemma record_skip library x :
  classify x = None -> record classify library x = library.
Proof. unfold record. by intros ->. Qed.
End Scan.

(** ** The two scanners as instances of the loop *)

Lemma foldl_pointwise {A B : Type} (f g : B -> A -> B) l b :
  (∀ b x, f b x = g b x) -> foldl f b l = foldl g b l.
Proof.
  intros Hfg. revert b. induction l as [|x l IH]; simpl; [done|].
  intros b. by rewrite Hfg, IH.
Qed.

Lemma strict_fresh_empty x m :
  strict_sighting x = Some m -> assets (s_fresh m) = ∅.
Proof.
  unfold strict_sighting. destruct (kind x); [|done].
  destruct (Scanner.recognize (name x)) as [[[p s] t]|]; [|done].
  by intros [= <-].
Qed.

Lemma loose_fresh_empty x m :
  loose_sighting x = Some m -> assets (s_fresh m) = ∅.
Proof.
  unfold loose_sighting. destruct (kind x.2); [|done].
  destruct (App.scanSeqId x.1); [|done]. by intros [= <-].
Qed.

Lemma Scanner_scan_spec dirHandle :
  Scanner.scanSequences dirHandle =
  if completes (values dirHandle)
  then Some (foldl (record strict_sighting) ∅ (items (values dirHandle)))
  else None.
Proof.
  unfold Scanner.scanSequences. rewrite for_await_spec.
  destruct (completes (values dirHandle)); [|done]. f_equal.
  apply foldl_pointwise, Scanner_visit_record.
Qed.

Lemma App_scan_spec dirHandle w :
  App.scanSequences dirHandle w =
  (if completes (values dirHandle)
   then Fulfilled (foldl (record loose_sighting) ∅
                     (map named (items (values dirHandle))))
   else Rejected, w).
Proof.
  unfold App.scanSequences, entries. rewrite for_await_spec.
  rewrite completes_emap, items_emap.
  destruct (completes (values dirHandle)); [|done]. simpl.
  unfold resolve. do 2 f_equal. apply foldl_pointwise, App_visit_record.
Qed.

Lemma strict_sighting_file entry projectName seqId type :
  kind entry = file ->
  Scanner.recognize (name entry) = Some (projectName, seqId, type) ->
  strict_sighting entry =
  Some {| s_id := seqId;
          s_fresh := {| id := Some seqId; projectName := Some projectName;
                        assets := ∅ |};
          s_asset := if decide (toLowerCase type = str "__proto__")
                     then None
                     else Some (toLowerCase type, entry) |}.
Proof. unfold strict_sighting. by intros -> ->. Qed.

Lemma strict_sighting_inv entry m :
  strict_sighting entry = Some m ->
  ∃ projectName type,
    kind entry = file ∧
    Scanner.recognize (name entry) = Some (projectName, s_id m, type) ∧
    s_fresh m = {| id := Some (s_id m); projectName := Some projectName;
                   assets := ∅ |} ∧
    s_asset m = if decide (toLowerCase type = str "__proto__")
                then None
                else Some (toLowerCase type, entry).
Proof.
  unfold strict_sighting. destruct (kind entry); [|done].
  destruct (Scanner.recognize (name entry)) as [[[p s] t]|]; [|done].
  intros [= <-]. by exists p, t.
Qed.

Lemma loose_sighting_inv item m :
  loose_sighting item = Some m ->
  kind item.2 = file ∧ App.scanSeqId item.1 = Some (s_id m) ∧
  s_fresh m = {| id := None; projectName := None; assets := ∅ |} ∧
  s_asset m = (fun key => (key, item.2)) <$> loose_kind item.1.
Proof.
  unfold loose_sighting. destruct (kind item.2); [|done].
  destruct (App.scanSeqId item.1) as [s|]; [|done]. by intros [= <-].
Qed.

Lemma loose_sighting_file h seqId :
  kind h = file -> App.scanSeqId (name h) = Some seqId ->
  loose_sighting (named h) =
  Some {| s_id := seqId;
          s_fresh := {| id := None; projectName := None; assets := ∅ |};
          s_asset := (fun key => (key, h)) <$> loose_kind (name h) |}.
Proof. unfold loose_sighting, named. simpl. by intros -> ->. Qed.

Lemma alter_present (library : Library) seqId e f :
  library !! seqId = Some e -> alter f seqId library = <[seqId := f e]> library.
Proof.
  intros He. apply map_eq. intros k. destruct (decide (seqId = k)) as [<-|Hne].
  - by rewrite lookup_alter_eq, lookup_insert_eq, He.
  - by rewrite lookup_alter_ne, lookup_insert_ne.
Qed.

Lemma strict_sighting_of entry seqId :
  is_Some (sighting_of strict_sighting seqId entry) ↔
  kind entry = file ∧
  ∃ projectName type,
    Scanner.recognize (name entry) = Some (projectName, seqId, type).
Proof.
  unfold sighting_of. split.
  - destruct (strict_sighting entry) as [m|] eqn:Hm; [|by intros [? ?]].
    case_decide as Hid; [|by intros [? ?]]. intros _.
    apply strict_sighting_inv in Hm as (p & t & Hk & Hr & _).
    rewrite Hid in Hr. eauto.
  - intros (Hk & p & t & Hr). rewrite (strict_sighting_file _ _ _ _ Hk Hr).
    simpl. rewrite decide_True by done. by eexists.
Qed.

Lemma loose_sighting_of h seqId :
  is_Some (sighting_of loose_sighting seqId (named h)) ↔
  kind h = file ∧ App.scanSeqId (name h) = Some seqId.
Proof.
  unfold sighting_of. split.
  - destruct (loose_sighting (named h)) as [m|] eqn:Hm; [|by intros [? ?]].
    case_decide as Hid; [|by intros [? ?]]. intros _.
    apply loose_sighting_inv in Hm as (Hk & Hr & _).
    rewrite Hid in Hr. eauto.
  - intros (Hk & Hr). rewrite (loose_sighting_file _ _ Hk Hr).
    simpl. rewrite decide_True by done. by eexists.
Qed.


Lemma loose_asset_of h seqId key :
  kind h = file -> App.scanSeqId (name h) = Some seqId ->
  loose_kind (name h) = Some key ->
  asset_of loose_sighting seqId key (named h) = Some h.
Proof.
  intros Hk Hr Hkind. unfold asset_of, sighting_of.
  rewrite (loose_sighting_file _ _ Hk Hr). simpl.
  rewrite decide_True by done. simpl. rewrite Hkind. simpl.
  by rewrite decide_True.
Qed.

Lemma elem_of_named h l : h ∈ l -> named h ∈ map named l.
Proof. intros H. apply list_elem_of_fmap. eauto. Qed.

Lemma named_elem_of x l : x ∈ map named l -> ∃ h, x = named h ∧ h ∈ l.
Proof. intros H. by apply list_elem_of_fmap in H. Qed.

(** The sequence entries of the strict scanner after a completed scan. *)
Lemma strict_scan_entry l seqId e :
  foldl (record strict_sighting) ∅ l !! seqId = Some e ->
  id e = Some seqId ∧
  (∃ l1 first l2 p t,
     l = l1 ++ first :: l2 ∧ kind first = file ∧
     Scanner.recognize (name first) = Some (p, seqId, t) ∧
     Forall (fun x => sighting_of strict_sighting seqId x = None) l1 ∧
     projectName e = Some p) ∧
  ∀ key, assets e !! key = last_match (asset_of strict_sighting seqId key) l.
Proof.
  intros He. pose proof (scan_lookup strict_sighting strict_fresh_empty l seqId)
    as H.
  rewrite He in H. destruct H as [(m & Hfirst & Hid & Hpn) Hassets].
  apply first_match_Some in Hfirst as (l1 & x & l2 & Hl & Hx & Hl1).
  unfold sighting_of in Hx. destruct (strict_sighting x) as [m'|] eqn:Hm;
    [|done].
  case_decide as Hs; [|done]. injection Hx as ->.
  apply strict_sighting_inv in Hm as (p & t & Hk & Hr & Hfresh & _).
  rewrite Hfresh in Hid, Hpn. simpl in *. rewrite Hs in *.
  repeat split; [done| |done]. by exists l1, x, l2, p, t.
Qed.

(** The sequence entries of the loose scanner after a completed scan. *)
Lemma loose_scan_entry l seqId e :
  foldl (record loose_sighting) ∅ (map named l) !! seqId = Some e ->
  id e = None ∧ projectName e = None ∧
  ∀ key,
    assets e !! key =
    last_match (asset_of loose_sighting seqId key) (map named l).
Proof.
  intros He.
  pose proof (scan_lookup loose_sighting loose_fresh_empty (map named l) seqId)
    as H.
  rewrite He in H. destruct H as [(m & Hfirst & Hid & Hpn) Hassets].
  apply first_match_Some in Hfirst as (l1 & x & l2 & Hl & Hx & Hl1).
  unfold sighting_of in Hx. destruct (loose_sighting x) as [m'|] eqn:Hm;
    [|done].
  case_decide as Hs; [|done]. injection Hx as ->.
  apply loose_sighting_inv in Hm as (Hk & Hr & Hfresh & _).
  rewrite Hfresh in Hid, Hpn. by simpl in *.
Qed.

Lemma strict_scan_keys l seqId :
  is_Some (foldl (record strict_sighting) ∅ l !! seqId) ↔
  ∃ entry projectName type,
    entry ∈ l ∧ kind entry = file ∧
    Scanner.recognize (name entry) = Some (projectName, seqId, type).
Proof.
  rewrite (scan_lookup_is_Some strict_sighting strict_fresh_empty). split.
  - intros (x & Hin & Hx). apply strict_sighting_of in Hx as (Hk & p & t & Hr).
    by exists x, p, t.
  - intros (x & p & t & Hin & Hk & Hr). exists x. split; [done|].
    apply strict_sighting_of. eauto.
Qed.

Lemma loose_scan_keys l seqId :
  is_Some (foldl (record loose_sighting) ∅ (map named l) !! seqId) ↔
  ∃ h, h ∈ l ∧ kind h = file ∧ App.scanSeqId (name h) = Some seqId.
Proof.
  rewrite (scan_lookup_is_Some loose_sighting loose_fresh_empty). split.
  - intros (x & Hin & Hx). apply named_elem_of in Hin as (h & -> & Hin).
    apply loose_sighting_of in Hx as (Hk & Hr). by exists h.
  - intros (h & Hin & Hk & Hr). exists (named h).
    split; [by apply elem_of_named|]. by apply loose_sighting_of.
Qed.

(** C1 -- The strict scanner at two files of one sequence whose kinds are
    [__proto__] and [Script], in either order: the pattern recognises both
    names, and the entry of the sequence ends with the single asset key
    [script]; the file of kind [__proto__] is under no key. *)
Theorem proto_kind_is_under_no_key :
  Scanner.recognize (str "Project_X_Seq01___proto__.txt") =
    Some (str "X", str "01", str "__proto__") ∧
  Scanner.recognize (str "Project_X_Seq01_Script.txt") =
    Some (str "X", str "01", str "Script") ∧
  Scanner.scanSequences
    (folder [a_file "Project_X_Seq01___proto__.txt";
             a_file "Project_X_Seq01_Script.txt"]) =
  Some {[ str "01" :=
            {| id := Some (str "01"); projectName := Some (str "X");
               assets := {[ str "script" :=
                              a_file "Project_X_Seq01_Script.txt" ]} |} ]} ∧
  Scanner.scanSequences
    (folder [a_file "Project_X_Seq01_Script.txt";
             a_file "Project_X_Seq01___proto__.txt"]) =
  Some {[ str "01" :=
            {| id := Some (str "01"); projectName := Some (str "X");
               assets := {[ str "script" :=
                              a_file "Project_X_Seq01_Script.txt" ]} |} ]}.
Proof. repeat split; by vm_compute. Qed.





Lemma App_scan_inv dirHandle w library :
  App.scanSequences dirHandle w = (Fulfilled library, w) ->
  completes (values dirHandle) = true ∧
  library = foldl (record loose_sighting) ∅
              (map named (items (values dirHandle))).
Proof.
  rewrite App_scan_spec. destruct (completes (values dirHandle)); [|done].
  by intros [= <-].
Qed.

Lemma Scanner_scan_inv dirHandle library :
  Scanner.scanSequences dirHandle = Some library ->
  completes (values dirHandle) = true ∧
  library = foldl (record strict_sighting) ∅ (items (values dirHandle)).
Proof.
  rewrite Scanner_scan_spec. destruct (completes (values dirHandle)); [|done].
  by intros [= <-].
Qed.

(** C9 as the claim has it, refuted: the entries of the loose scanner have
    no [id]. *)
Lemma loose_entry_has_no_id :
  ∃ library e,
    App.scanSequences (folder [a_file "Seq01_Script.txt"]) blank =
      (Fulfilled library, blank) ∧
    library !! str "01" = Some e ∧ id e ≠ Some (str "01").
Proof.
  eexists _, _. split; [by vm_compute|]. split; [by vm_compute|]. done.
Qed.

(** C9, amended -- An entry of the strict scanner carries the sequence ID
    under which the Library holds it in its [id], and in [projectName] the
    project name captured from the first file of that sequence; an entry of
    the loose scanner carries neither: its sequence ID, read from one of the
    files, is the key of the Library alone. *)
Theorem scan_entry_fields dirHandle seqId e :
  let l := items (values dirHandle) in
  (∀ strict,
     Scanner.scanSequences dirHandle = Some strict ->
     strict !! seqId = Some e ->
     id e = Some seqId ∧
     ∃ l1 first l2 project type,
       l = l1 ++ first :: l2 ∧ kind first = file ∧
       Scanner.recognize (name first) = Some (project, seqId, type) ∧
       Forall (fun x => ¬ (kind x = file ∧
                          ∃ p t, Scanner.recognize (name x)
                                 = Some (p, seqId, t))) l1 ∧
       projectName e = Some project) ∧
  (∀ loose w,
     App.scanSequences dirHandle w = (Fulfilled loose, w) ->
     loose !! seqId = Some e ->
     id e = None ∧ projectName e = None ∧
     ∃ h, h ∈ l ∧ kind h = file ∧ App.scanSeqId (name h) = Some seqId).
Proof.
  intros l. split.
  - intros strict Hscan He. apply Scanner_scan_inv in Hscan as [_ ->].
    apply strict_scan_entry in He
      as (Hid & (l1 & x & l2 & p & t & Hl & Hk & Hr & Hl1 & Hpn) & _).
    split; [done|]. exists l1, x, l2, p, t. repeat split; try done.
    eapply Forall_impl; [exact Hl1|]. intros y Hy Hsight.
    apply strict_sighting_of in Hsight as [m Hm]. congruence.
  - intros loose w Hscan He. apply App_scan_inv in Hscan as [_ ->].
    pose proof (loose_scan_entry _ _ _ He) as (Hid & Hpn & _).
    repeat split; [done | done |]. apply loose_scan_keys. by eexists.
Qed.

Lemma scan_entry_fields_witness :
  ∃ strict e,
    Scanner.scanSequences (folder [a_file "Project_X_Seq01_Script.txt";
                                   a_file "Project_Y_Seq01_Prompt.txt"])
    = Some strict ∧
    strict !! str "01" = Some e ∧
    id e = Some (str "01") ∧ projectName e = Some (str "X").
Proof.
  eexists _, _. split; [by vm_compute|]. split; [by vm_compute|].
  destruct (scan_entry_fields
              (folder [a_file "Project_X_Seq01_Script.txt";
                       a_file "Project_Y_Seq01_Prompt.txt"])
              (str "01")
              {| id := Some (str "01"); projectName := Some (str "X");
                 assets := {[ str "script" := a_file "Project_X_Seq01_Script.txt";
                              str "prompt" := a_file "Project_Y_Seq01_Prompt.txt" ]} |})
    as [Hstrict _].
  destruct (Hstrict _ ltac:(by vm_compute) ltac:(by vm_compute))
    as (Hid & _).
  split; [exact Hid | done].
Defined.

Lemma loose_kind_None name :
  loose_kind name = None ↔ endsWith (str ".txt") (toLowerCase name) = false.
Proof.
  unfold loose_kind. destruct (endsWith _ _).
  - rewrite andb_true_r. by destruct (includes _ _).
  - by rewrite andb_false_r.
Qed.

(** C10 -- Under the loose scanner, a file whose name holds [Seq<digits>]
    gives its sequence an entry in the Library whether or not it is a
    [.txt] file; when no file of the sequence is a [.txt] file the assets of
    that entry are empty, and the entry counts all the same. *)
Theorem loose_scan_keeps_unclassified dirHandle w loose h :
  App.scanSequences dirHandle w = (Fulfilled loose, w) ->
  h ∈ items (values dirHandle) -> kind h = file ->
  (∃ seqId, holds (fun mid => loose_form mid seqId) (name h)) ->
  ∃ seqId e,
    App.scanSeqId (name h) = Some seqId ∧ loose !! seqId = Some e ∧
    0 < size loose ∧
    ((∀ h', h' ∈ items (values dirHandle) -> kind h' = file ->
            App.scanSeqId (name h') = Some seqId ->
            endsWith (str ".txt") (toLowerCase (name h')) = false) ->
     assets e = ∅).
Proof.
  intros Hscan Hin Hk [s Hholds].
  apply App_scan_inv in Hscan as [_ ->].
  destruct (scanSeqId_complete _ _ Hholds) as [seqId Hid].
  destruct (proj2 (loose_scan_keys (items (values dirHandle)) seqId))
    as [e He]; [by exists h|].
  exists seqId, e. repeat split; [done | done | |].
  - destruct (decide (size (foldl (record loose_sighting) ∅
                              (map named (items (values dirHandle)))) = 0))
      as [Hz|Hnz]; [|lia].
    apply map_size_empty_inv in Hz. rewrite Hz in He. by rewrite lookup_empty in He.
  - intros Hall. apply map_eq. intros key. rewrite lookup_empty.
    apply loose_scan_entry in He as (_ & _ & ->).
    apply last_match_None, Forall_forall. intros x Hx.
    apply named_elem_of in Hx as (h' & -> & Hin').
    unfold asset_of.
    destruct (sighting_of loose_sighting seqId (named h')) as [m|] eqn:Hm;
      [|done].
    assert (is_Some (sighting_of loose_sighting seqId (named h'))) as Hs
      by (by eexists).
    apply loose_sighting_of in Hs as [Hk' Hid'].
    unfold sighting_of in Hm. rewrite (loose_sighting_file _ _ Hk' Hid') in Hm.
    simpl in Hm. rewrite decide_True in Hm by done. injection Hm as <-. simpl.
    by rewrite (proj2 (loose_kind_None _) (Hall h' Hin' Hk' Hid')).
Qed.

Lemma loose_scan_keeps_unclassified_witness :
  ∃ loose e,
    App.scanSequences (folder [a_file "Seq01_View.jpg"]) blank =
      (Fulfilled loose, blank) ∧
    loose !! str "01" = Some e ∧ assets e = ∅ ∧ 0 < size loose.
Proof.
  destruct (loose_scan_keeps_unclassified
              (folder [a_file "Seq01_View.jpg"]) blank
              {[ str "01" := {| id := None; projectName := None;
                                assets := ∅ |} ]}
              (a_file "Seq01_View.jpg"))
    as (seqId & e & Hid & He & Hsize & Hempty);
    [by vm_compute | simpl; set_solver | reflexivity
    | exists (str "01"); apply scanSeqId_sound; by vm_compute |].
  vm_compute in Hid. injection Hid as <-.
  exists {[ str "01" := {| id := None; projectName := None; assets := ∅ |} ]}, e.
  split; [by vm_compute|]. split; [exact He|]. split; [|exact Hsize].
  apply Hempty. intros h' Hin' _ _. simpl in Hin'.
  apply list_elem_of_singleton in Hin' as ->. by vm_compute.
Defined.

(** ** The handlers of the application *)

Lemma dropSeqId_scanSeqId name : App.dropSeqId name = App.scanSeqId name.
Proof. reflexivity. Qed.

Ltac run :=
  unfold mbind, mret, Async_bind, Async_ret, await, try_catch, resolve,
    reject, settled, state, update, setPrompt, setScript, setProjectLibrary,
    setCurrentFolder, console_error in *; simpl in *.

(** C5 -- When the enumeration of the directory throws, the scan fails as a
    whole: neither scanner returns a library, and both callers of the scan
    catch the failure, write a line to the console and leave the library
    they held as it was. *)
Theorem scan_failure_preserves_library w handle :
  completes (values handle) = false ->
  Scanner.scanSequences handle = None ∧
  App.scanSequences handle w = (Rejected, w) ∧
  (idb w !! App.STORAGE_KEY = Some handle ->
   ∃ w', App.init w = (Fulfilled (), w') ∧
         projectLibrary (app w') = projectLibrary (app w) ∧
         prompt (app w') = prompt (app w) ∧
         script (app w') = script (app w) ∧
         console w' =
         console w ++
           [str "Auto-scan failed (likely needs permission re-grant):"]) ∧
  (∃ w', App.handleConnectFolder (Some handle) w = (Fulfilled (), w') ∧
         projectLibrary (app w') = projectLibrary (app w) ∧
         prompt (app w') = prompt (app w) ∧
         script (app w') = script (app w) ∧
         console w' = console w ++ [str "Folder access denied"]).
Proof.
  intros Hthrows.
  split; [by rewrite Scanner_scan_spec, Hthrows|].
  split; [by rewrite App_scan_spec, Hthrows|].
  split.
  - intros Hstored. unfold App.init, App.getStoredDirectory. run.
    rewrite Hstored. rewrite App_scan_spec. simpl. rewrite Hthrows.
    by eexists.
  - unfold App.handleConnectFolder, App.saveDirectory. run.
    rewrite App_scan_spec. simpl. rewrite Hthrows. by eexists.
Qed.

Lemma scan_failure_preserves_library_witness :
  completes (values broken_folder) = false ∧
  ∃ w', App.init working = (Fulfilled (), w') ∧
        projectLibrary (app w') = projectLibrary (app working).
Proof.
  split; [reflexivity|].
  destruct (scan_failure_preserves_library working broken_folder eq_refl)
    as (_ & _ & Hinit & _).
  destruct (Hinit eq_refl) as (w' & Hrun & Hlib & _).
  by exists w'.
Defined.

(** C6 -- A drop of a file whose name holds no sequence ID does nothing: the
    handler is fulfilled and the world (the prompt and the script fields,
    the library, the console) is what it was. *)
Theorem drop_without_sequence_is_noop first others w :
  (¬ ∃ seqId, holds (fun mid => loose_form mid seqId) (fileName first)) ->
  App.handleFileDrop (first :: others) w = (Fulfilled (), w).
Proof.
  intros Hno. apply scanSeqId_None_iff in Hno.
  unfold App.handleFileDrop. run. by rewrite dropSeqId_scanSeqId, Hno.
Qed.

Lemma drop_without_sequence_is_noop_witness :
  App.handleFileDrop [ {| fileName := str "holiday.jpg" |} ] working
  = (Fulfilled (), working).
Proof.
  apply drop_without_sequence_is_noop.
  apply scanSeqId_None_iff. by vm_compute.
Defined.

(** C7 -- A drop of a file whose sequence is in the library, the entry
    having no prompt asset: the prompt field keeps its value; a script asset
    of the entry is read into the script field, and the handler is rejected
    only when that read is; with no script asset either, nothing changes and
    nothing is raised. *)
Theorem drop_with_missing_prompt first others w seqId sequenceData :
  App.dropSeqId (fileName first) = Some seqId ->
  projectLibrary (app w) !! seqId = Some sequenceData ->
  assets sequenceData !! str "prompt" = None ->
  ∃ c w',
    App.handleFileDrop (first :: others) w = (c, w') ∧
    prompt (app w') = prompt (app w) ∧
    projectLibrary (app w') = projectLibrary (app w) ∧
    match assets sequenceData !! str "script" with
    | Some handle =>
        match text handle with
        | Some t => c = Fulfilled () ∧ script (app w') = t
        | None => c = Rejected ∧ w' = w
        end
    | None => c = Fulfilled () ∧ w' = w
    end.
Proof.
  intros Hid Hentry Hprompt. unfold App.handleFileDrop, App.readText.
  unfold mbind, Async_bind, await, state. simpl.
  rewrite Hid, Hentry, Hprompt.
  destruct (assets sequenceData !! str "script") as [handle|].
  - destruct (text handle) as [t|]; simpl; by eexists _, _.
  - by eexists _, _.
Qed.

Lemma drop_with_missing_prompt_witness :
  ∃ w', App.handleFileDrop [ {| fileName := str "Seq07_View.jpg" |} ] working
        = (Fulfilled (), w') ∧
        prompt (app w') = str "a prompt" ∧ script (app w') = str "Seq07.txt".
Proof.
  destruct (drop_with_missing_prompt {| fileName := str "Seq07_View.jpg" |} []
              working (str "07")
              {| id := None; projectName := None;
                 assets := {[ str "script" := a_file "Seq07.txt" ]} |})
    as (c & w' & Hrun & Hprompt & _ & Hscript);
    [by vm_compute | by vm_compute | by vm_compute |].
  change (assets _ !! str "script") with (Some (a_file "Seq07.txt")) in Hscript.
  simpl in Hscript. destruct Hscript as [-> Hscript].
  exists w'. by repeat split.
Defined.

(** The start-up effect takes whatever handle is stored as the current
    folder, whatever its permission. *)
Lemma init_takes_stored_handle w handle :
  idb w !! App.STORAGE_KEY = Some handle ->
  ∃ c w', App.init w = (c, w') ∧ currentFolder (app w') = Some handle.
Proof.
  intros Hstored. unfold App.init, App.getStoredDirectory. run.
  rewrite Hstored. rewrite App_scan_spec.
  destruct (completes (values handle)); simpl; by eexists _, _.
Qed.

(** The helper of [lib/storage] hands out a stored handle only when the
    permission request is granted. *)
Lemma Storage_getStoredDirectory_granted store handle :
  Storage.getStoredDirectory store = Some handle ->
  store !! str "project-root" = Some handle ∧ permission handle = granted.
Proof.
  unfold Storage.getStoredDirectory.
  destruct (store !! str "project-root") as [h|]; [|done].
  destruct (permission h) eqn:Hp; [|done..]. by intros [= <-].
Qed.

(** C4 -- The start-up effect of the application at a stored handle whose
    grant has lapsed: no permission is asked for, the handle becomes the
    current folder and the scan is attempted on it (it fails, and the
    failure is logged); the helper of [lib/storage] would have answered
    that no directory is stored. *)
Theorem init_does_not_revalidate :
  App.init reloaded =
    (Fulfilled (),
     {| app := {| prompt := []; script := []; isLoading := false;
                  generatedContent := []; projectLibrary := ∅;
                  currentFolder := Some stale_folder |};
        idb := idb reloaded;
        console :=
          [str "Auto-scan failed (likely needs permission re-grant):"] |}) ∧
  Storage.getStoredDirectory {[ str "project-root" := stale_folder ]} = None.
Proof. split; reflexivity. Qed.

(** C2 as the claim has it, refuted: a name that is not of the strict form,
    but holds a string of that form, gives an entry. *)
Lemma strict_pattern_is_not_anchored :
  (¬ ∃ projectName seqId type ext,
       strict_form (str "old_Project_X_Seq01_Script.txt.bak")
         projectName seqId type ext) ∧
  Scanner.scanSequences
    (folder [a_file "old_Project_X_Seq01_Script.txt.bak"]) =
  Some {[ str "01" :=
            {| id := Some (str "01"); projectName := Some (str "X");
               assets := {[ str "script" :=
                              a_file "old_Project_X_Seq01_Script.txt.bak" ]}
            |} ]}.
Proof.
  split; [|by vm_compute].
  intros (n & d & k & ext & p & q & Hname & Hp & _).
  apply ci_eq_app_inv in Hp as (c & p' & -> & Hc & _).
  vm_compute in Hname. injection Hname as <- _. by vm_compute in Hc.
Qed.

(** C2, amended -- Under the strict convention a file gives a Library entry
    exactly when its name holds a string of the form
    [Project_<name>_Seq<digits>_<kind>.<ext>] (case-insensitive, the
    extension one of txt, png, wav, mp4); the name need not be that string
    from end to end.  For such a file, the scan of a directory that holds it
    alone yields one entry, under the captured sequence ID, with the
    captured ID and project name; when the lowercased kind is not
    [__proto__], the assets of the entry hold the file under the lowercased
    kind and nothing else.  The captures are those of a string of the form
    that the name holds. *)
Theorem strict_scan_of_one_file entry d :
  values d = yields [entry] -> kind entry = file ->
  ((¬ ∃ projectName seqId type ext,
        holds (fun mid => strict_form mid projectName seqId type ext)
          (name entry)) ->
   Scanner.scanSequences d = Some ∅) ∧
  ((∃ projectName seqId type ext,
       holds (fun mid => strict_form mid projectName seqId type ext)
         (name entry)) ->
   ∃ project seqId type ext e,
     holds (fun mid => strict_form mid project seqId type ext)
       (name entry) ∧
     Scanner.recognize (name entry) = Some (project, seqId, type) ∧
     Scanner.scanSequences d = Some {[ seqId := e ]} ∧
     id e = Some seqId ∧ projectName e = Some project ∧
     (toLowerCase type ≠ str "__proto__" ->
      assets e = {[ toLowerCase type := entry ]})).
Proof.
  intros Hd Hk. split.
  - intros Hno. apply recognize_None_iff in Hno.
    unfold Scanner.scanSequences. rewrite Hd. simpl.
    unfold Scanner.visit. by rewrite Hk, Hno.
  - intros (n0 & s0 & t0 & ext0 & Hholds).
    destruct (recognize_complete _ _ _ _ _ Hholds) as [[[n s] t] Hr].
    destruct (recognize_sound _ _ _ _ Hr) as [ext Hform].
    exists n, s, t, ext,
      (assign_asset (toLowerCase t) entry
         {| id := Some s; projectName := Some n; assets := ∅ |}).
    split; [done|]. split; [done|]. split.
    + unfold Scanner.scanSequences. rewrite Hd. simpl.
      unfold Scanner.visit. rewrite Hk, Hr, lookup_empty.
      rewrite (alter_present _ _ _ _ (lookup_insert_eq _ _ _)).
      by rewrite insert_insert_eq, insert_empty.
    + unfold assign_asset. case_decide as Hproto; simpl.
      * split; [done|]. by split.
      * split; [done|]. split; [done|]. intros _. by rewrite insert_empty.
Qed.

Lemma strict_scan_of_one_file_witness :
  Scanner.scanSequences (folder [a_file "notes.md"]) = Some ∅ ∧
  ∃ project seqId type e,
    Scanner.scanSequences (folder [a_file "Project_X_Seq01_Script.txt"]) =
      Some {[ seqId := e ]} ∧
    Scanner.recognize (str "Project_X_Seq01_Script.txt") =
      Some (project, seqId, type) ∧
    assets e = {[ toLowerCase type := a_file "Project_X_Seq01_Script.txt" ]}.
Proof.
  split.
  - apply (strict_scan_of_one_file (a_file "notes.md")
             (folder [a_file "notes.md"]) eq_refl eq_refl).
    apply recognize_None_iff. by vm_compute.
  - destruct (strict_scan_of_one_file (a_file "Project_X_Seq01_Script.txt")
                (folder [a_file "Project_X_Seq01_Script.txt"])
                eq_refl eq_refl) as [_ H].
    destruct H as (n & s & t & ext & e & _ & Hr & Hscan & _ & _ & Hassets).
    + exists (str "X"), (str "01"), (str "Script").
      apply recognize_sound. by vm_compute.
    + exists n, s, t, e. split; [exact Hscan|]. split; [exact Hr|].
      apply Hassets. vm_compute in Hr. injection Hr as _ _ <-.
      by vm_compute.
Defined.

(** C3 as the claim has it, refuted: the recogniser of the drop handler and
    that of the strict scanner differ, in what they recognise and in the ID
    they read. *)
Lemma drop_and_strict_recognisers_differ :
  App.dropSeqId (str "Seq01_View.jpg") = Some (str "01") ∧
  Scanner.recognize (str "Seq01_View.jpg") = None ∧
  App.dropSeqId (str "Seq1_Project_A_Seq2_x.txt") = Some (str "1") ∧
  Scanner.recognize (str "Seq1_Project_A_Seq2_x.txt") =
    Some (str "A", str "2", str "x").
Proof. repeat split; by vm_compute. Qed.

(** C3, amended -- The recogniser of the drop handler is that of the scanner
    inlined in the same application: for every name both read a sequence ID
    or neither does, and the IDs are equal.  Against the strict scanner one
    half holds: a name that the strict scanner recognises is recognised by
    the drop handler as well, the sequence ID that the strict scanner
    captured being one [Seq<digits>] that the name holds. *)
Theorem drop_recogniser_agreement name :
  App.dropSeqId name = App.scanSeqId name ∧
  ∀ projectName seqId type,
    Scanner.recognize name = Some (projectName, seqId, type) ->
    is_Some (App.dropSeqId name) ∧
    holds (fun mid => loose_form mid seqId) name.
Proof.
  split; [reflexivity|]. intros p s t Hr.
  apply recognize_sound in Hr as (ext & pre & mid & post & -> & Hform).
  assert (Hholds : holds (fun mid' => loose_form mid' s) (pre ++ mid ++ post)).
  { eapply holds_within, strict_form_holds_loose, Hform. }
  split; [|done]. rewrite dropSeqId_scanSeqId. by eapply scanSeqId_complete.
Qed.

Lemma drop_recogniser_agreement_witness :
  is_Some (App.dropSeqId (str "Project_X_Seq01_Script.txt")).
Proof.
  destruct (drop_recogniser_agreement (str "Project_X_Seq01_Script.txt"))
    as [_ H].
  apply (H (str "X") (str "01") (str "Script")). by vm_compute.
Defined.

(** * Further properties of the code *)

(** ** The first match and the greedy run *)

Lemma star_matcher_greedy cs s caps (k : Continuation) :
  (∀ s' caps', is_Some (k s' caps')) ->
  ∃ s1 s2,
    s = s1 ++ s2 ∧ Forall (fun c => accepts cs c = true) s1 ∧
    (∀ c s2', s2 = c :: s2' -> accepts cs c = false) ∧
    star_matcher cs s caps k = k s2 caps.
Proof.
  intros Hk. induction s as [|c s IH]; simpl.
  - exists [], []. split; [done|]. split; [constructor|]. by split.
  - destruct (accepts cs c) eqn:Hc.
    + destruct IH as (s1 & s2 & -> & Hall & Hhead & ->).
      exists (c :: s1), s2. split; [done|]. split; [by constructor|].
      split; [done|]. by destruct (Hk s2 caps) as [res ->].
    + exists [], (c :: s). split; [done|]. split; [constructor|].
      split; [|done]. by intros ? ? [= <- <-].
Qed.

Lemma exec_first r s m :
  exec r s = Some m ->
  ∃ pre rest,
    s = pre ++ rest ∧
    matcher (Group 0 r) rest ∅ (fun _ caps => Some caps) = Some m ∧
    ∀ a b, pre = a ++ b -> b ≠ [] ->
           matcher (Group 0 r) (b ++ rest) ∅ (fun _ caps => Some caps) = None.
Proof.
  induction s as [|c s IH]; simpl.
  - destruct (matcher r [] ∅ _) as [res|] eqn:Hm; [|done].
    intros [= <-]. exists [], []. split; [done|]. split; [exact Hm|].
    intros a b Hab. by destruct a, b.
  - destruct (matcher r (c :: s) ∅ _) as [res|] eqn:Hm.
    + intros [= <-]. exists [], (c :: s). split; [done|].
      split; [exact Hm|]. intros a b Hab. by destruct a, b.
    + intros H. destruct (IH H) as (pre & rest & -> & Hrest & Hnone).
      exists (c :: pre), rest. split; [done|]. split; [exact Hrest|].
      intros a b Hab Hb. destruct a as [|c' a].
      * simpl in Hab. subst b. exact Hm.
      * injection Hab as <- ->. by apply (Hnone a b).
Qed.

Lemma matcher_None_no_match r s caps0 caps0' mid post :
  matcher (Group 0 r) s ∅ (fun _ caps => Some caps) = None ->
  s = mid ++ post -> ¬ Matches r mid caps0 caps0'.
Proof.
  intros HNone -> Hm.
  destruct (matcher_complete (Group 0 r) mid caps0 (<[0 := mid]> caps0')
              ltac:(by constructor) post ∅ (fun _ caps => Some caps)
              ltac:(by eexists)) as [res Hres].
  congruence.
Qed.

Lemma ci_eq_length s l : ci_eq s l -> length s = length l.
Proof.
  unfold ci_eq. intros H. apply (f_equal length) in H.
  by rewrite !length_map in H.
Qed.

(** The match of the loose pattern at the head of a string: the three
    letters, then the whole run of digits that follows them. *)
Lemma loose_match_here s m :
  matcher (Group 0 LOOSE_PATTERN) s ∅ (fun _ caps => Some caps) = Some m ->
  ∃ p seqId post,
    s = p ++ seqId ++ post ∧ ci_eq p (str "Seq") ∧
    seqId ≠ [] ∧ Forall (fun c => is_digit c = true) seqId ∧
    (∀ c post', post = c :: post' -> is_digit c = false) ∧
    m !! 1 = Some seqId.
Proof.
  intros H. unfold LOOSE_PATTERN in H. simpl in H.
  destruct s as [|c1 [|c2 [|c3 [|c rest]]]]; try done;
    repeat (case_decide; [|done]); try done.
  destruct (is_digit c) eqn:Hc; [|done].
  match type of H with
  | star_matcher _ _ _ ?k = _ =>
      destruct (star_matcher_greedy Digit rest ∅ k) as
        (d & post & -> & Hd & Hpost & Hrun); [by eexists|]
  end.
  rewrite Hrun in H. injection H as <-.
  exists [c1; c2; c3], (c :: d), post.
  split; [done|].
  split; [unfold ci_eq, str; simpl; congruence|].
  split; [done|]. split; [by constructor|]. split; [done|].
  rewrite lookup_insert_ne by done.
  change (c :: d ++ post) with ((c :: d) ++ post).
  by rewrite consumed_app, lookup_insert_eq.
Qed.

Lemma run_unique (P : ascii -> bool) s1 post1 s2 post2 :
  s1 ++ post1 = s2 ++ post2 ->
  Forall (fun c => P c = true) s1 -> Forall (fun c => P c = true) s2 ->
  (∀ c post', post1 = c :: post' -> P c = false) ->
  (∀ c post', post2 = c :: post' -> P c = false) ->
  s1 = s2.
Proof.
  intros Heq H1 H2 Hp1 Hp2.
  apply app_eq_inv in Heq as [(k & -> & ->)|(k & -> & ->)].
  - destruct k as [|c k]; [by rewrite app_nil_r|].
    apply Forall_app in H1 as [_ H1]. apply Forall_cons in H1 as [Hc _].
    specialize (Hp2 c (k ++ post1) eq_refl). congruence.
  - destruct k as [|c k]; [by rewrite app_nil_r|].
    apply Forall_app in H2 as [_ H2]. apply Forall_cons in H2 as [Hc _].
    specialize (Hp1 c (k ++ post2) eq_refl). congruence.
Qed.

Lemma first_full_run_unique name s1 s2 :
  first_full_run name s1 -> first_full_run name s2 -> s1 = s2.
Proof.
  intros (pre1 & p1 & post1 & -> & Hp1 & Hn1 & Hd1 & Hmax1 & Hfirst1)
         (pre2 & p2 & post2 & Heq & Hp2 & Hn2 & Hd2 & Hmax2 & Hfirst2).
  assert (Hrest : p1 ++ s1 ++ post1 = p2 ++ s2 ++ post2).
  { apply app_eq_inv in Heq as [(k & -> & Hk)|(k & -> & Hk)].
    - destruct k as [|c k]; [done|]. exfalso.
      apply (Hfirst1 pre2 (c :: k) eq_refl ltac:(done)).
      exists s2, (p2 ++ s2), post2. split.
      + rewrite <- Hk. by rewrite <- app_assoc.
      + by exists p2.
    - destruct k as [|c k]; [done|]. exfalso.
      apply (Hfirst2 pre1 (c :: k) eq_refl ltac:(done)).
      exists s1, (p1 ++ s1), post1. split.
      + rewrite <- Hk. by rewrite <- app_assoc.
      + by exists p1. }
  assert (Hlen : length p1 = length p2)
    by (by rewrite (ci_eq_length _ _ Hp1), (ci_eq_length _ _ Hp2)).
  apply app_inj_1 in Hrest as [_ Hrest]; [|done].
  by eapply (run_unique is_digit).
Qed.

(** X1 -- The sequence ID that the loose recogniser reads (in the inlined
    scanner and in the drop handler alike) is the whole run of digits that
    follows the first [Seq<digit>] of the name, whatever the case of the
    three letters; and every name that holds such a run is recognised. *)
Theorem scanSeqId_is_first_full_run name seqId :
  (App.scanSeqId name = Some seqId ↔ first_full_run name seqId) ∧
  (App.dropSeqId name = Some seqId ↔ first_full_run name seqId).
Proof.
  assert (Hfwd : ∀ s, App.scanSeqId name = Some s -> first_full_run name s).
  { intros s. unfold App.scanSeqId.
    destruct (exec LOOSE_PATTERN name) as [m|] eqn:Hex; [|done].
    apply exec_first in Hex as (pre & rest & -> & Hhere & Hnone).
    apply loose_match_here in Hhere
      as (p & d & post & -> & Hp & Hd0 & Hd & Hmax & H1).
    unfold group. rewrite H1. simpl. rewrite (truthy_nonempty d Hd0).
    intros [= <-]. exists pre, p, post. repeat split; try done.
    intros a b Hab Hb (s' & mid & rest & Heq & Hform).
    eapply (matcher_None_no_match LOOSE_PATTERN _ ∅ (<[1 := s']> ∅) mid rest).
    - by apply (Hnone a b).
    - done.
    - apply Matches_LOOSE_PATTERN. by exists s'. }
  assert (Hiff : App.scanSeqId name = Some seqId ↔ first_full_run name seqId).
  { split; [apply Hfwd|]. intros Hrun.
    destruct Hrun as (pre & p & post & Hname & Hp & Hd0 & Hd & Hrest) eqn:E.
    clear E.
    destruct (scanSeqId_complete name seqId) as [s Hs].
    { exists pre, (p ++ seqId), post. split; [by rewrite <- app_assoc|].
      by exists p. }
    rewrite Hs. f_equal. apply (first_full_run_unique name); [by apply Hfwd|].
    by exists pre, p, post. }
  split; [done|]. by rewrite dropSeqId_scanSeqId.
Qed.

Lemma lower_char_word c :
  is_word c = true ->
  is_word (lower_char c) = true ∧ is_upper (lower_char c) = false.
Proof.
  destruct c as [[] [] [] [] [] [] [] []]; vm_compute; intros; by split.
Qed.

Lemma toLowerCase_word s :
  Forall (fun c => is_word c = true) s ->
  Forall (fun c => is_word c = true ∧ is_upper c = false) (toLowerCase s).
Proof.
  unfold toLowerCase. induction 1 as [|c s Hc _ IH]; simpl; constructor;
    [by apply lower_char_word | done].
Qed.


Lemma last_match_elem_of {A B : Type} (f : A -> option B) l b :
  last_match f l = Some b -> ∃ x, x ∈ l ∧ f x = Some b.
Proof.
  intros Hb. apply last_match_Some in Hb as (l1 & x & l2 & -> & Hx & _).
  exists x. split; [|done]. apply elem_of_app. right. by left.
Qed.

Lemma strict_asset_of_inv seqId key entry h :
  asset_of strict_sighting seqId key entry = Some h ->
  h = entry ∧ kind entry = file ∧
  ∃ projectName type,
    Scanner.recognize (name entry) = Some (projectName, seqId, type) ∧
    key = toLowerCase type.
Proof.
  unfold asset_of, sighting_of.
  destruct (strict_sighting entry) as [m|] eqn:Hm; [|done].
  apply strict_sighting_inv in Hm as (p & t & Hk & Hr & _ & Ha).
  destruct (decide (s_id m = seqId)) as [Hs|]; [|done]. rewrite Ha.
  destruct (decide (toLowerCase t = str "__proto__")) as [|Hproto]; [done|].
  destruct (decide (toLowerCase t = key)) as [Hkey|]; [|done].
  intros [= <-]. subst. eauto 7.
Qed.

Lemma loose_asset_of_inv seqId key item h :
  asset_of loose_sighting seqId key item = Some h ->
  h = item.2 ∧ kind item.2 = file ∧
  App.scanSeqId item.1 = Some seqId ∧ loose_kind item.1 = Some key.
Proof.
  unfold asset_of, sighting_of.
  destruct (loose_sighting item) as [m|] eqn:Hm; [|done].
  apply loose_sighting_inv in Hm as (Hk & Hr & _ & Ha).
  case_decide as Hs; [|done]. rewrite Ha.
  destruct (loose_kind item.1) as [k|]; [|done]. simpl.
  case_decide as Hkey; [|done]. intros [= <-]. by subst.
Qed.

(** X2 -- Every key of a scanned Library, under either scanner, is a
    non-empty string of decimal digits. *)
Theorem library_keys_are_digits dirHandle seqId :
  (∀ strict,
     Scanner.scanSequences dirHandle = Some strict ->
     is_Some (strict !! seqId) ->
     seqId ≠ [] ∧ Forall (fun c => is_digit c = true) seqId) ∧
  (∀ w loose,
     App.scanSequences dirHandle w = (Fulfilled loose, w) ->
     is_Some (loose !! seqId) ->
     seqId ≠ [] ∧ Forall (fun c => is_digit c = true) seqId).
Proof.
  split.
  - intros strict Hscan Hkey. apply Scanner_scan_inv in Hscan as [_ ->].
    apply strict_scan_keys in Hkey as (x & p & t & _ & _ & Hr).
    apply recognize_sound in Hr
      as (ext & pre & mid & post & _ & p' & q & _ & _ & _ & _ & Hd0 & Hd & _).
    by split.
  - intros w loose Hscan Hkey. apply App_scan_inv in Hscan as [_ ->].
    apply loose_scan_keys in Hkey as (h & _ & _ & Hr).
    apply scanSeqId_sound in Hr as (pre & mid & post & _ & p & _ & _ & Hd0 & Hd).
    by split.
Qed.

(** X3 -- Whatever the strict scanner files in an entry is a file of the
    directory whose name it recognised for that sequence, and the key it is
    filed under is the lowercased kind of that name: a non-empty string of
    word characters without upper-case letters.  Directories are never
    filed. *)
Theorem strict_assets_are_recognised_files dirHandle strict seqId e key h :
  Scanner.scanSequences dirHandle = Some strict ->
  strict !! seqId = Some e ->
  assets e !! key = Some h ->
  h ∈ items (values dirHandle) ∧ kind h = file ∧
  (∃ projectName type,
     Scanner.recognize (name h) = Some (projectName, seqId, type) ∧
     key = toLowerCase type) ∧
  key ≠ [] ∧
  Forall (fun c => is_word c = true ∧ is_upper c = false) key.
Proof.
  intros Hscan He Hkey. apply Scanner_scan_inv in Hscan as [_ ->].
  apply strict_scan_entry in He as (_ & _ & Hassets).
  rewrite Hassets in Hkey.
  apply last_match_elem_of in Hkey as (x & Hin & Hx).
  apply strict_asset_of_inv in Hx as (-> & Hk & p & t & Hr & ->).
  split; [done|]. split; [done|]. split; [by exists p, t|].
  apply recognize_sound in Hr
    as (ext & pre & mid & post & _ & p' & q & _ & _ & _ & _ & _ & _ & Ht0 & Ht & _).
  split.
  - destruct t; [done|]. done.
  - by apply toLowerCase_word.
Qed.

(** X4 -- Whatever the loose scanner files in an entry is a [.txt] file of
    the directory whose name holds the sequence ID of the entry, and the
    only keys are [prompt] (the lowercased name holds "prompt") and
    [script] (it does not). *)
Theorem loose_assets_are_txt_files dirHandle w loose seqId e key h :
  App.scanSequences dirHandle w = (Fulfilled loose, w) ->
  loose !! seqId = Some e ->
  assets e !! key = Some h ->
  h ∈ items (values dirHandle) ∧ kind h = file ∧
  App.scanSeqId (name h) = Some seqId ∧
  endsWith (str ".txt") (toLowerCase (name h)) = true ∧
  (key = str "prompt" ∧
   includes (str "prompt") (toLowerCase (name h)) = true ∨
   key = str "script" ∧
   includes (str "prompt") (toLowerCase (name h)) = false).
Proof.
  intros Hscan He Hkey. apply App_scan_inv in Hscan as [_ ->].
  apply loose_scan_entry in He as (_ & _ & Hassets).
  rewrite Hassets in Hkey.
  apply last_match_elem_of in Hkey as (x & Hin & Hx).
  apply named_elem_of in Hin as (h' & -> & Hin).
  apply loose_asset_of_inv in Hx as (-> & Hk & Hr & Hkind). simpl in *.
  split; [done|]. split; [done|]. split; [done|].
  unfold loose_kind in Hkind.
  destruct (includes _ _) eqn:Hinc; destruct (endsWith _ _) eqn:Hend;
    simpl in Hkind; try done; injection Hkind as <-; auto.
Qed.

(** ** The order of the enumeration *)





Lemma loose_scan_dom l :
  dom (foldl (record loose_sighting) ∅ (map named l)) =
  list_to_set (omap loose_id l).
Proof.
  apply set_eq. intros s.
  rewrite elem_of_dom, loose_scan_keys, elem_of_list_to_set, list_elem_of_omap.
  unfold loose_id. split.
  - intros (h & Hin & Hk & Hr). exists h. by rewrite Hk.
  - intros (h & Hin & Hid). exists h. destruct (kind h); [done|done].
Qed.

(** ** Connecting, reloading and the status line *)

Ltac run_all :=
  unfold try_catch_finally, setIsLoading, setGeneratedContent in *; run.

(** The world after a connection that succeeds. *)
Lemma handleConnectFolder_success w handle :
  completes (values handle) = true ->
  ∃ loose w',
    (∀ w0, App.scanSequences handle w0 = (Fulfilled loose, w0)) ∧
    App.handleConnectFolder (Some handle) w = (Fulfilled (), w') ∧
    app w' = {| prompt := prompt (app w); script := script (app w);
                isLoading := isLoading (app w);
                generatedContent := generatedContent (app w);
                projectLibrary := loose;
                currentFolder := Some handle |} ∧
    idb w' = <[App.STORAGE_KEY := handle]> (idb w) ∧
    console w' = console w.
Proof.
  intros Hdone.
  exists (foldl (record loose_sighting) ∅ (map named (items (values handle)))).
  eexists. split; [intros w0; by rewrite App_scan_spec, Hdone|].
  unfold App.handleConnectFolder, App.saveDirectory. run.
  rewrite App_scan_spec, Hdone. simpl. by repeat split.
Qed.

(** X6 -- A connection that succeeds stores the handle under the storage
    key, makes it the current folder and replaces the library, whatever it
    held, by the scan of the folder; the text fields and the console are
    left alone. *)
Theorem connect_replaces_library w handle :
  completes (values handle) = true ->
  ∃ loose w',
    (∀ w0, App.scanSequences handle w0 = (Fulfilled loose, w0)) ∧
    App.handleConnectFolder (Some handle) w = (Fulfilled (), w') ∧
    app w' = {| prompt := prompt (app w); script := script (app w);
                isLoading := isLoading (app w);
                generatedContent := generatedContent (app w);
                projectLibrary := loose;
                currentFolder := Some handle |} ∧
    idb w' = <[App.STORAGE_KEY := handle]> (idb w) ∧
    console w' = console w.
Proof. apply handleConnectFolder_success. Qed.

Lemma connect_replaces_library_witness :
  ∃ w', App.handleConnectFolder
          (Some (folder [a_file "Seq01_Script.txt"])) working
        = (Fulfilled (), w') ∧
        projectLibrary (app w') !! str "07" = None ∧
        is_Some (projectLibrary (app w') !! str "01").
Proof.
  destruct (connect_replaces_library working
              (folder [a_file "Seq01_Script.txt"]) eq_refl)
    as (loose & w' & Hscan & Hrun & Happ & _).
  exists w'. split; [exact Hrun|]. rewrite Happ. simpl.
  specialize (Hscan blank). vm_compute in Hscan. injection Hscan as <-.
  split; [by vm_compute | vm_compute; by eexists].
Defined.

(** X7 -- Round trip over a reload: after a connection that succeeded, a
    fresh start of the application (initial state, the key-value store
    kept) finds the handle again, makes it the current folder and scans it
    into the library it had, provided the folder enumerates as before.  No
    permission is consulted on the way. *)
Theorem reload_restores_library w handle :
  completes (values handle) = true ->
  ∃ w1 w2,
    App.handleConnectFolder (Some handle) w = (Fulfilled (), w1) ∧
    App.init {| app := app blank; idb := idb w1; console := [] |}
    = (Fulfilled (), w2) ∧
    projectLibrary (app w2) = projectLibrary (app w1) ∧
    currentFolder (app w2) = Some handle ∧
    console w2 = [].
Proof.
  intros Hdone.
  destruct (handleConnectFolder_success w handle Hdone)
    as (loose & w1 & Hscan & Hrun & Happ & Hidb & _).
  exists w1. eexists. split; [exact Hrun|].
  unfold App.init, App.getStoredDirectory. run.
  rewrite Hidb, lookup_insert_eq. rewrite Hscan. simpl.
  split; [reflexivity|]. simpl. by rewrite Happ.
Qed.

Lemma reload_restores_library_witness :
  ∃ w1 w2,
    App.handleConnectFolder (Some (folder [a_file "Seq01_Script.txt"])) blank
    = (Fulfilled (), w1) ∧
    App.init {| app := app blank; idb := idb w1; console := [] |}
    = (Fulfilled (), w2) ∧
    projectLibrary (app w2) = projectLibrary (app w1).
Proof.
  destruct (reload_restores_library blank
              (folder [a_file "Seq01_Script.txt"]) eq_refl)
    as (w1 & w2 & H1 & H2 & H3 & _).
  by exists w1, w2.
Defined.

(** X8 -- What a connection that fails leaves behind.  When the picker is
    dismissed only the console changes.  When the picker returns a handle
    but the scan of it throws, the handle has been stored and made the
    current folder all the same: the button shows the folder, the library
    (and with it the footer) and the fields are the old ones, and the
    console reads "Folder access denied". *)
Theorem connect_failure_effects w :
  App.handleConnectFolder None w =
    (Fulfilled (), {| app := app w; idb := idb w;
                      console := console w ++ [str "Folder access denied"] |}) ∧
  ∀ handle,
    completes (values handle) = false ->
    ∃ w',
      App.handleConnectFolder (Some handle) w = (Fulfilled (), w') ∧
      idb w' = <[App.STORAGE_KEY := handle]> (idb w) ∧
      currentFolder (app w') = Some handle ∧
      App.connectButton (app w') = FolderName (dir_name handle) ∧
      projectLibrary (app w') = projectLibrary (app w) ∧
      App.footer (app w') = App.footer (app w) ∧
      prompt (app w') = prompt (app w) ∧
      script (app w') = script (app w) ∧
      isLoading (app w') = isLoading (app w) ∧
      generatedContent (app w') = generatedContent (app w) ∧
      console w' = console w ++ [str "Folder access denied"].
Proof.
  split; [reflexivity|]. intros handle Hthrows.
  unfold App.handleConnectFolder, App.saveDirectory. run.
  rewrite App_scan_spec, Hthrows. simpl. by eexists.
Qed.

Lemma connect_failure_effects_witness :
  ∃ w', App.handleConnectFolder (Some broken_folder) blank = (Fulfilled (), w') ∧
        currentFolder (app w') = Some broken_folder ∧
        App.footer (app w') = NoDirectoryLinked.
Proof.
  destruct (connect_failure_effects blank) as [_ H].
  destruct (H broken_folder eq_refl)
    as (w' & Hrun & _ & Hfolder & _ & Hlib & Hfoot & _).
  exists w'. split; [exact Hrun|]. split; [exact Hfolder|].
  rewrite Hfoot. reflexivity.
Defined.

(** X9 -- The start-up effect reads the key [vibe_studio_handle] and no
    other: with nothing stored under it the world is left as it is, also
    when [lib/storage] has saved a handle under its own key. *)
Theorem init_reads_only_its_key w :
  idb w !! App.STORAGE_KEY = None ->
  App.init w = (Fulfilled (), w) ∧
  ∀ handle,
    App.init {| app := app w; idb := Storage.saveDirectory handle (idb w);
                console := console w |}
    = (Fulfilled (),
       {| app := app w; idb := Storage.saveDirectory handle (idb w);
          console := console w |}).
Proof.
  intros Hnone. split.
  - unfold App.init, App.getStoredDirectory. run. rewrite Hnone.
    by destruct w.
  - intros handle. unfold App.init, App.getStoredDirectory. run.
    unfold Storage.saveDirectory. rewrite lookup_insert_ne by done.
    by rewrite Hnone.
Qed.

Lemma init_reads_only_its_key_witness :
  App.init {| app := app blank;
              idb := Storage.saveDirectory (folder []) (idb blank);
              console := [] |}
  = (Fulfilled (),
     {| app := app blank;
        idb := Storage.saveDirectory (folder []) (idb blank);
        console := [] |}).
Proof.
  destruct (init_reads_only_its_key blank eq_refl) as [_ H].
  apply (H (folder [])).
Defined.

(** X10 -- Round trip of [lib/storage]: what [saveDirectory] stored is what
    [getStoredDirectory] hands out, when the permission on it is granted,
    and nothing otherwise; a second save replaces the first; a handle that
    the application stored under its own key is not seen. *)
Theorem storage_round_trip store handle :
  Storage.getStoredDirectory (Storage.saveDirectory handle store) =
    (match permission handle with
     | granted => Some handle
     | _ => None
     end) ∧
  (∀ earlier,
     Storage.saveDirectory handle (Storage.saveDirectory earlier store) =
     Storage.saveDirectory handle store) ∧
  Storage.getStoredDirectory (<[App.STORAGE_KEY := handle]> store) =
  Storage.getStoredDirectory store.
Proof.
  unfold Storage.getStoredDirectory, Storage.saveDirectory.
  split; [by rewrite lookup_insert_eq|].
  split; [intros earlier; by rewrite insert_insert_eq|].
  by rewrite lookup_insert_ne.
Qed.

(** ** The drop handler *)

(** The drop handler with the sequence of the first file in the library:
    the prompt asset is read first, the script asset after it. *)
Lemma handleFileDrop_known first others w seqId sequenceData :
  App.dropSeqId (fileName first) = Some seqId ->
  projectLibrary (app w) !! seqId = Some sequenceData ->
  App.handleFileDrop (first :: others) w =
  (match assets sequenceData !! str "prompt" with
   | Some handle => t ← App.readText handle; setPrompt t
   | None => resolve ()
   end;;
   match assets sequenceData !! str "script" with
   | Some handle => t ← App.readText handle; setScript t
   | None => resolve ()
   end) w.
Proof.
  intros Hid Hentry. unfold App.handleFileDrop.
  unfold mbind at 1. unfold Async_bind, await, state. simpl.
  by rewrite Hid, Hentry.
Qed.

(** X11 -- A drop changes nothing but the prompt and the script fields: the
    library, the current folder, the loading flag, the generated content,
    the key-value store and the console are what they were, whatever is
    dropped and whether or not a read fails; and only the first of the
    dropped files counts. *)
Theorem drop_touches_only_the_fields files w :
  (∃ c w',
     App.handleFileDrop files w = (c, w') ∧
     projectLibrary (app w') = projectLibrary (app w) ∧
     currentFolder (app w') = currentFolder (app w) ∧
     isLoading (app w') = isLoading (app w) ∧
     generatedContent (app w') = generatedContent (app w) ∧
     idb w' = idb w ∧ console w' = console w) ∧
  ∀ first others,
    files = first :: others ->
    App.handleFileDrop files w = App.handleFileDrop [first] w.
Proof.
  split.
  - destruct files as [|first others]; [by eexists _, _|].
    destruct (App.dropSeqId (fileName first)) as [seqId|] eqn:Hid.
    + destruct (projectLibrary (app w) !! seqId) as [e|] eqn:He.
      * rewrite (handleFileDrop_known _ _ _ _ _ Hid He).
        unfold App.readText. unfold mbind, Async_bind, await.
        destruct (assets e !! str "prompt") as [hp|];
          destruct (assets e !! str "script") as [hs|];
          try destruct (text hp); try destruct (text hs);
          simpl; by eexists _, _.
      * unfold App.handleFileDrop. run. rewrite Hid, He. by eexists _, _.
    + unfold App.handleFileDrop. run. rewrite Hid. by eexists _, _.
  - by intros first others ->.
Qed.

(** X12 -- The drops that do nothing: an empty drop, a file whose sequence
    is not in the library, and a file whose sequence has neither a prompt
    nor a script asset.  The handler is fulfilled and the world is what it
    was. *)
Theorem drop_without_companions_is_noop w :
  App.handleFileDrop [] w = (Fulfilled (), w) ∧
  ∀ first others seqId,
    App.dropSeqId (fileName first) = Some seqId ->
    match projectLibrary (app w) !! seqId with
    | None => True
    | Some sequenceData =>
        assets sequenceData !! str "prompt" = None ∧
        assets sequenceData !! str "script" = None
    end ->
    App.handleFileDrop (first :: others) w = (Fulfilled (), w).
Proof.
  split; [reflexivity|]. intros first others seqId Hid Hentry.
  destruct (projectLibrary (app w) !! seqId) as [e|] eqn:He.
  - rewrite (handleFileDrop_known _ _ _ _ _ Hid He).
    destruct Hentry as [-> ->]. reflexivity.
  - unfold App.handleFileDrop. run. by rewrite Hid, He.
Qed.

Lemma drop_without_companions_is_noop_witness :
  App.handleFileDrop [ {| fileName := str "Seq99_View.jpg" |} ] working
  = (Fulfilled (), working).
Proof.
  destruct (drop_without_companions_is_noop working) as [_ H].
  apply (H _ [] (str "99")); [by vm_compute | by vm_compute].
Defined.

(** The drop handler at an entry that has a prompt asset. *)
Lemma handleFileDrop_prompt_first first others w seqId sequenceData handle :
  App.dropSeqId (fileName first) = Some seqId ->
  projectLibrary (app w) !! seqId = Some sequenceData ->
  assets sequenceData !! str "prompt" = Some handle ->
  ∃ c w',
    App.handleFileDrop (first :: others) w = (c, w') ∧
    match text handle with
    | None => c = Rejected ∧ w' = w
    | Some t =>
        prompt (app w') = t ∧
        match assets sequenceData !! str "script" with
        | None => c = Fulfilled () ∧ script (app w') = script (app w)
        | Some handle' =>
            match text handle' with
            | Some t' => c = Fulfilled () ∧ script (app w') = t'
            | None => c = Rejected ∧ script (app w') = script (app w)
            end
        end
    end.
Proof.
  intros Hid He Hp. rewrite (handleFileDrop_known _ _ _ _ _ Hid He), Hp.
  unfold App.readText. unfold mbind, Async_bind, await.
  destruct (text handle) as [t|]; simpl; [|by eexists _, _].
  destruct (assets sequenceData !! str "script") as [hs|];
    [destruct (text hs)|]; simpl; by eexists _, _.
Qed.

(** X13 -- A drop whose sequence has a prompt asset.  The prompt is read
    first: when that read is rejected the handler is rejected at once and
    nothing has changed, the script asset is not read.  When it yields a
    text, the prompt field holds it from then on; the script field takes
    the text of the script asset when there is one and its read succeeds,
    and a rejected read of the script leaves the handler rejected with the
    prompt field already changed. *)
Theorem drop_with_prompt first others w seqId sequenceData handle :
  App.dropSeqId (fileName first) = Some seqId ->
  projectLibrary (app w) !! seqId = Some sequenceData ->
  assets sequenceData !! str "prompt" = Some handle ->
  ∃ c w',
    App.handleFileDrop (first :: others) w = (c, w') ∧
    match text handle with
    | None => c = Rejected ∧ w' = w
    | Some t =>
        prompt (app w') = t ∧
        match assets sequenceData !! str "script" with
        | None => c = Fulfilled () ∧ script (app w') = script (app w)
        | Some handle' =>
            match text handle' with
            | Some t' => c = Fulfilled () ∧ script (app w') = t'
            | None => c = Rejected ∧ script (app w') = script (app w)
            end
        end
    end.
Proof. apply handleFileDrop_prompt_first. Qed.

Lemma drop_with_prompt_witness :
  ∃ w', App.handleFileDrop [ {| fileName := str "Seq01_View.jpg" |} ]
          with_prompt = (Fulfilled (), w') ∧
        prompt (app w') = str "a city at dusk".
Proof.
  destruct (drop_with_prompt {| fileName := str "Seq01_View.jpg" |} []
              with_prompt (str "01")
              {| id := None; projectName := None;
                 assets :=
                   {[ str "prompt" :=
                        {| kind := file; name := str "Seq01_prompt.txt";
                           text := Some (str "a city at dusk") |} ]} |}
              {| kind := file; name := str "Seq01_prompt.txt";
                 text := Some (str "a city at dusk") |})
    as (c & w' & Hrun & H);
    [by vm_compute | by vm_compute | by vm_compute |].
  simpl in H. destruct H as [Hprompt H].
  change (_ !! str "script") with (@None FileSystemHandle) in H.
  simpl in H. destruct H as [-> _]. by exists w'.
Defined.

(** X14 -- Scan and drop, end to end.  After a connection that succeeded,
    the drop of any file whose name reads the sequence ID [seqId] puts in
    the prompt field the text of the last file of the enumeration that is a
    prompt file of that sequence, when that file can be read. *)
Theorem drop_fills_prompt_from_last_prompt_file
    w dirHandle l1 promptFile l2 seqId t first others :
  completes (values dirHandle) = true ->
  items (values dirHandle) = l1 ++ promptFile :: l2 ->
  kind promptFile = file ->
  App.scanSeqId (name promptFile) = Some seqId ->
  loose_kind (name promptFile) = Some (str "prompt") ->
  Forall (fun h => ¬ (kind h = file ∧ App.scanSeqId (name h) = Some seqId ∧
                      loose_kind (name h) = Some (str "prompt"))) l2 ->
  text promptFile = Some t ->
  App.dropSeqId (fileName first) = Some seqId ->
  ∃ w1 c w2,
    App.handleConnectFolder (Some dirHandle) w = (Fulfilled (), w1) ∧
    App.handleFileDrop (first :: others) w1 = (c, w2) ∧
    prompt (app w2) = t.
Proof.
  intros Hdone Hitems Hk Hr Hkind Hlast Htext Hid.
  destruct (handleConnectFolder_success w dirHandle Hdone)
    as (loose & w1 & Hscan & Hrun & Happ & _).
  specialize (Hscan w). apply App_scan_inv in Hscan as [_ ->].
  destruct (proj2 (loose_scan_keys (items (values dirHandle)) seqId))
    as [e He].
  { exists promptFile. split; [|done]. rewrite Hitems.
    apply elem_of_app. right. by left. }
  assert (Hp : assets e !! str "prompt" = Some promptFile).
  { pose proof (loose_scan_entry _ _ _ He) as (_ & _ & ->).
    apply last_match_Some.
    exists (map named l1), (named promptFile), (map named l2).
    rewrite Hitems, map_app. split; [done|].
    split; [by apply loose_asset_of|].
    apply Forall_forall. intros x Hx.
    apply named_elem_of in Hx as (h & -> & Hin).
    destruct (asset_of loose_sighting seqId (str "prompt") (named h))
      as [h'|] eqn:Ha; [|done].
    apply loose_asset_of_inv in Ha as (_ & Hk' & Hr' & Hkind').
    rewrite Forall_forall in Hlast. by destruct (Hlast h Hin). }
  assert (He1 : projectLibrary (app w1) !! seqId = Some e)
    by (by rewrite Happ).
  destruct (handleFileDrop_prompt_first first others w1 seqId e promptFile
              Hid He1 Hp)
    as (c & w2 & Hdrop & H).
  rewrite Htext in H. destruct H as [Hprompt _].
  by exists w1, c, w2.
Qed.

Lemma drop_fills_prompt_from_last_prompt_file_witness :
  ∃ w1 c w2,
    App.handleConnectFolder
      (Some (folder [a_file "Seq01_prompt_old.txt"; a_file "Seq01_prompt.txt";
                     a_file "Seq01_notes.txt"])) blank = (Fulfilled (), w1) ∧
    App.handleFileDrop [ {| fileName := str "take_seq01.png" |} ] w1 = (c, w2) ∧
    prompt (app w2) = str "Seq01_prompt.txt".
Proof.
  apply (drop_fills_prompt_from_last_prompt_file blank
           (folder [a_file "Seq01_prompt_old.txt"; a_file "Seq01_prompt.txt";
                    a_file "Seq01_notes.txt"])
           [a_file "Seq01_prompt_old.txt"] (a_file "Seq01_prompt.txt")
           [a_file "Seq01_notes.txt"] (str "01"));
    try reflexivity; try (by vm_compute).
  constructor; [|constructor]. intros (_ & _ & H). by vm_compute in H.
Defined.

(** X15 -- The status line after a connection that succeeded: the button
    shows the name of the folder, and the footer counts the distinct
    sequence IDs that the names of the files hold.  With no such file the
    footer reads "No Directory Linked" although a folder is connected. *)
Theorem status_after_connect w handle :
  completes (values handle) = true ->
  ∃ w',
    App.handleConnectFolder (Some handle) w = (Fulfilled (), w') ∧
    App.connectButton (app w') = FolderName (dir_name handle) ∧
    let ids : gset jsstring :=
      list_to_set (omap loose_id (items (values handle))) in
    App.footer (app w') =
    if 0 <? size ids then SequencesActive (size ids) else NoDirectoryLinked.
Proof.
  intros Hdone.
  destruct (handleConnectFolder_success w handle Hdone)
    as (loose & w' & Hscan & Hrun & Happ & _).
  exists w'. split; [exact Hrun|]. rewrite Happ. split; [reflexivity|].
  specialize (Hscan w). apply App_scan_inv in Hscan as [_ ->].
  unfold App.footer. simpl. by rewrite <- loose_scan_dom, size_dom.
Qed.

Lemma status_after_connect_witness :
  ∃ w',
    App.handleConnectFolder (Some (folder [a_file "holiday.jpg"])) blank
    = (Fulfilled (), w') ∧
    App.connectButton (app w') = FolderName (str "Vibe-Studio") ∧
    App.footer (app w') = NoDirectoryLinked.
Proof.
  destruct (status_after_connect blank (folder [a_file "holiday.jpg"]) eq_refl)
    as (w' & Hrun & Hbutton & Hfooter).
  exists w'. split; [exact Hrun|]. split; [exact Hbutton|].
  rewrite Hfooter. by vm_compute.
Defined.

(** ** The generation handler *)

(** X16 -- The generation handler.  With an empty prompt it does nothing.
    Otherwise it never touches the prompt, the script, the library, the
    folder or the store.  When the client is constructed the handler is
    fulfilled with the loading flag down, whatever the service answers: the
    generated content is the text of the response, empty when the response
    has none, and a fixed error message (with a line on the console) when
    the call is rejected.  When the constructor of the client throws, the
    handler is rejected with the loading flag still up. *)
Theorem generate_outcomes genai w :
  (prompt (app w) = [] -> App.handleGenerate genai w = (Fulfilled (), w)) ∧
  (prompt (app w) ≠ [] ->
   ∃ c w',
     App.handleGenerate genai w = (c, w') ∧
     prompt (app w') = prompt (app w) ∧ script (app w') = script (app w) ∧
     projectLibrary (app w') = projectLibrary (app w) ∧
     currentFolder (app w') = currentFolder (app w) ∧
     idb w' = idb w ∧
     if constructs genai then
       c = Fulfilled () ∧ isLoading (app w') = false ∧
       match generateContent genai (prompt (app w)) with
       | Some (Some t) =>
           generatedContent (app w') = t ∧ console w' = console w
       | Some None =>
           generatedContent (app w') = [] ∧ console w' = console w
       | None =>
           generatedContent (app w') =
             str "Error generating content. Please check console." ∧
           console w' = console w ++ [str "Generation failed"]
       end
     else
       c = Rejected ∧ isLoading (app w') = true ∧
       generatedContent (app w') = [] ∧ console w' = console w).
Proof.
  split.
  - intros Hempty. unfold App.handleGenerate. run_all. rewrite Hempty.
    reflexivity.
  - intros Hprompt. unfold App.handleGenerate.
    unfold mbind at 1. unfold Async_bind, await, state. simpl.
    rewrite (truthy_nonempty _ Hprompt). run_all.
    destruct (constructs genai); simpl; [|by eexists _, _].
    destruct (generateContent genai (prompt (app w))) as [[t|]|]; simpl;
      [destruct t | |]; simpl; by eexists _, _.
Qed.

Lemma generate_outcomes_witness :
  ∃ w', App.handleGenerate silent_service working = (Fulfilled (), w') ∧
        isLoading (app w') = false ∧ generatedContent (app w') = [].
Proof.
  destruct (generate_outcomes silent_service working) as [_ H].
  destruct H as (c & w' & Hrun & _ & _ & _ & _ & _ & H); [done|].
  simpl in H. destruct H as (-> & Hloading & Hcontent & _).
  by exists w'.
Defined.

(** ** The further properties at sample inputs *)

Lemma scanSeqId_is_first_full_run_witness :
  first_full_run (str "take_SEQ012b_seq9.txt") (str "012").
Proof.
  apply (proj1 (proj1 (scanSeqId_is_first_full_run _ _))). by vm_compute.
Defined.

Lemma library_keys_are_digits_witness :
  Forall (fun c => is_digit c = true) (str "01").
Proof.
  destruct (library_keys_are_digits
              (folder [a_file "Project_X_Seq01_Script.txt"]) (str "01"))
    as [H _].
  refine (proj2 (H _ eq_refl _)). vm_compute. by eexists.
Defined.

Lemma strict_assets_are_recognised_files_witness :
  kind (a_file "Project_X_Seq01_Script.txt") = file ∧
  Forall (fun c => is_word c = true ∧ is_upper c = false) (str "script").
Proof.
  destruct (strict_assets_are_recognised_files
              (folder [a_file "Project_X_Seq01_Script.txt"])
              {[ str "01" :=
                   {| id := Some (str "01"); projectName := Some (str "X");
                      assets := {[ str "script" :=
                                     a_file "Project_X_Seq01_Script.txt" ]}
                   |} ]}
              (str "01")
              {| id := Some (str "01"); projectName := Some (str "X");
                 assets := {[ str "script" :=
                                a_file "Project_X_Seq01_Script.txt" ]} |}
              (str "script") (a_file "Project_X_Seq01_Script.txt"))
    as (_ & Hk & _ & _ & Hkey);
    [by vm_compute | by vm_compute | by vm_compute |].
  by split.
Defined.

Lemma loose_assets_are_txt_files_witness :
  endsWith (str ".txt") (toLowerCase (name (a_file "Seq01_Prompt.TXT"))) = true.
Proof.
  destruct (loose_assets_are_txt_files
              (folder [a_file "Seq01_Prompt.TXT"]) blank
              {[ str "01" :=
                   {| id := None; projectName := None;
                      assets := {[ str "prompt" := a_file "Seq01_Prompt.TXT" ]}
                   |} ]}
              (str "01")
              {| id := None; projectName := None;
                 assets := {[ str "prompt" := a_file "Seq01_Prompt.TXT" ]} |}
              (str "prompt") (a_file "Seq01_Prompt.TXT"))
    as (_ & _ & _ & Htxt & _);
    [by vm_compute | by vm_compute | by vm_compute |].
  exact Htxt.
Defined.

Lemma drop_touches_only_the_fields_witness :
  App.handleFileDrop [ {| fileName := str "Seq07_View.jpg" |};
                       {| fileName := str "Seq01_View.jpg" |} ] working =
  App.handleFileDrop [ {| fileName := str "Seq07_View.jpg" |} ] working.
Proof.
  destruct (drop_touches_only_the_fields
              [ {| fileName := str "Seq07_View.jpg" |};
                {| fileName := str "Seq01_View.jpg" |} ] working) as [_ H].
  by apply (H _ [ {| fileName := str "Seq01_View.jpg" |} ]).
Defined.
